(** * Verification of the discovery orchestrator (psiphon/server/discovery.go)

    The file embeds the [Discovery] type of package [server] together with
    its three functions [newDiscovery], [reload] and [DiscoverServers].

    - Pointers are locations of a store; [nil] is [None].
    - A call runs in a monad that threads the store and can panic (a nil
      dereference); a Go [error] result is an [option error].
    - Everything a call does to the outside (constructors of package
      [discovery], cancel functions, the mutex, the log) is recorded, in
      order, in a trace.
    - The second half gives the critical sections of [reload] and
      [DiscoverServers] an interleaving semantics over [sync.RWMutex]. *)

From Stdlib Require Import String List.
From stdpp Require Import base option list relations gmap.
Import ListNotations.
#[local] Set Warnings "-clear-no-such-hyp".
Open Scope string_scope.
Open Scope list_scope.

(** ** Values of the collaborating packages *)

(** Go [error] values. [errors.Trace] wraps an error, [errors.Tracef]
    builds one from a formatted message; every other error comes from a
    collaborator. *)
Inductive error : Type :=
| ExternalError (msg : string)
| Trace (err : error)
| Tracef (msg : string).

(** [psinet.DiscoveryServer]: only the field read by this file is named. *)
Record DiscoveryServer : Type := mkServer {
  EncodedServerEntry : string;
  server_id : nat
}.

(** [net.IP] is a byte slice. *)
Definition IP : Type := list Byte.byte.

(** [discovery.RealClock{}] *)
Inductive Clock : Type := RealClock.

(** Values behind the interface [discovery.DiscoveryStrategy]: the two
    constructors called by [reload], with the arguments they were given. *)
Inductive DiscoveryStrategy : Type :=
| ClassicDiscovery (discoveryValueHMACKey : string) (clock : Clock)
| ConsistentHashingDiscovery.

(** A [context.Context] made by [context.WithCancel] is identified by its
    allocation number; its [context.CancelFunc] cancels that context. *)
Definition ctx_id : Type := nat.

Inductive CancelFunc : Type := CancelOf (ctx : ctx_id).

Definition cancel_ctx (f : CancelFunc) : ctx_id := let 'CancelOf c := f in c.

(** The component [*discovery.Discovery] as [discovery.NewDiscovery] builds
    it: it keeps the arguments of its construction. The context makes two
    components built by two calls distinct. *)
Record Component : Type := mkComponent {
  comp_ctx : ctx_id;
  comp_clock : Clock;
  comp_servers : list DiscoveryServer;
  comp_strategy : DiscoveryStrategy
}.

(** [parameters.ParametersAccessor]: nil, or a table of string parameters. *)
Definition ParametersAccessor : Type := option (string → string).

Definition IsNil (p : ParametersAccessor) : bool :=
  match p with None => true | Some _ => false end.

Definition String_ (p : ParametersAccessor) (name : string) : string :=
  match p with Some tbl => tbl name | None => "" end.

Definition ServerDiscoveryStrategy : string := "ServerDiscoveryStrategy".

Inductive GeoIPData : Type := NewGeoIPData.

(** Package [discovery] is not part of this file. Its constructors are
    parameters that decide whether a construction fails, and the selection
    of a component is a parameter as well. *)
Class DiscoveryPackage : Type := {
  NewConsistentHashingDiscovery_err : option error;
  NewClassicDiscovery_err : string → Clock → option error;
  NewDiscovery_err :
    Clock → list DiscoveryServer → DiscoveryStrategy → option error;
  SelectServers : Component → IP → list DiscoveryServer
}.

(** ** The types of package [server] *)

Definition loc : Type := nat.

(** [SupportServices], restricted to the fields [reload] reads. Its field
    [discovery] points to the orchestrator the server has registered. *)
Module Support.
Record SupportServices : Type := mk {
  ServerTacticsParametersCache : GeoIPData → error + ParametersAccessor;
  DiscoveryValueHMACKey : string;     (* Config.DiscoveryValueHMACKey *)
  GetDiscoveryServers : list DiscoveryServer;
                                      (* PsinetDatabase.GetDiscoveryServers() *)
  discovery : option loc              (* *Discovery *)
}.
End Support.
Export Support(SupportServices).

Definition DISCOVERY_STRATEGY_CLASSIC : string := "classic".
Definition DISCOVERY_STRATEGY_CONSISTENT : string := "consistent".

Record Discovery : Type := mkDiscovery {
  support : option loc;              (* *SupportServices *)
  currentStrategy : string;
  discovery : option Component;      (* *discovery.Discovery *)
  cancelFunc : option CancelFunc     (* context.CancelFunc *)
}.

(** ** Store, trace and the monad of calls *)

Inductive Event : Type :=
| EvNewConsistentHashingDiscovery
| EvNewClassicDiscovery (key : string)
| EvWithCancel (c : ctx_id)
| EvNewDiscovery (c : ctx_id)
| EvCancel (c : ctx_id)
| EvLock (d : loc)
| EvUnlock (d : loc)
| EvRLock (d : loc)
| EvRUnlock (d : loc)
| EvLogStrategy (strategy : string).

Record State : Type := mkState {
  supports : gmap loc SupportServices;
  orchestrators : gmap loc Discovery;
  next_ctx : ctx_id;
  trace : list Event
}.

Inductive Outcome (A : Type) : Type :=
| Returns (a : A)
| Panics.
Arguments Returns {A} a.
Arguments Panics {A}.

Definition M (A : Type) : Type := State → Outcome A * State.

Definition ret {A} (a : A) : M A := λ σ, (Returns a, σ).

Definition bind {A B} (m : M A) (k : A → M B) : M B :=
  λ σ, match m σ with
       | (Returns a, σ') => k a σ'
       | (Panics, σ') => (Panics, σ')
       end.

Definition panic {A} : M A := λ σ, (Panics, σ).

Declare Scope go_scope.
Delimit Scope go_scope with go.
Notation "x <- m ;; k" := (bind m (λ x, k))
  (at level 100, m at next level, right associativity) : go_scope.
Notation "m ;;; k" := (bind m (λ _, k))
  (at level 100, right associativity) : go_scope.
Open Scope go_scope.

Definition emit (e : Event) : M unit :=
  λ σ, (Returns tt,
        mkState (supports σ) (orchestrators σ) (next_ctx σ) (trace σ ++ [e])).

(** Dereference of a [*Discovery]. *)
Definition load (d : option loc) : M Discovery :=
  λ σ, match d ≫= (λ l, orchestrators σ !! l) with
       | Some o => (Returns o, σ)
       | None => (Panics, σ)
       end.

(** Dereference of a [*SupportServices]. *)
Definition load_support (s : option loc) : M SupportServices :=
  λ σ, match s ≫= (λ l, supports σ !! l) with
       | Some sup => (Returns sup, σ)
       | None => (Panics, σ)
       end.

(** Assignment to the fields of [*d]. *)
Definition store (d : loc) (f : Discovery → Discovery) : M unit :=
  λ σ, match orchestrators σ !! d with
       | Some o =>
           (Returns tt,
            mkState (supports σ) (<[d := f o]> (orchestrators σ))
                    (next_ctx σ) (trace σ))
       | None => (Panics, σ)
       end.

Definition set_discovery (c : Component) (o : Discovery) : Discovery :=
  mkDiscovery (support o) (currentStrategy o) (Some c) (cancelFunc o).

Definition set_cancelFunc (f : CancelFunc) (o : Discovery) : Discovery :=
  mkDiscovery (support o) (currentStrategy o) (discovery o) (Some f).

Definition set_currentStrategy (s : string) (o : Discovery) : Discovery :=
  mkDiscovery (support o) s (discovery o) (cancelFunc o).

(** [context.WithCancel(context.Background())] *)
Definition WithCancel : M (ctx_id * CancelFunc) :=
  λ σ, let c := next_ctx σ in
       (Returns (c, CancelOf c),
        mkState (supports σ) (orchestrators σ) (S c)
                (trace σ ++ [EvWithCancel c])).

(** [&Discovery{...}]: a new object at a location not in use. *)
Definition alloc (o : Discovery) : M loc :=
  λ σ, let d := fresh (dom (orchestrators σ)) in
       (Returns d,
        mkState (supports σ) (<[d := o]> (orchestrators σ))
                (next_ctx σ) (trace σ)).

(** [defer late] followed by [body]: [late] runs when [body] returns and
    when it panics. *)
Definition defer {A} (late : M unit) (body : M A) : M A :=
  λ σ, let '(out, σ1) := body σ in
       let '(_, σ2) := late σ1 in
       (out, σ2).

(** Go slices of strings: the nil slice, or a slice with its elements. *)
Inductive slice (A : Type) : Type :=
| nil_slice
| Slice (elems : list A).
Arguments nil_slice {A}.
Arguments Slice {A} elems.

(** [make([]T, 0)] *)
Definition make0 {A} : slice A := Slice [].

Definition append {A} (s : slice A) (x : A) : slice A :=
  match s with
  | nil_slice => Slice [x]
  | Slice elems => Slice (elems ++ [x])
  end.

(** A call of a [context.CancelFunc]. *)
Definition call_cancel (f : CancelFunc) : M unit := emit (EvCancel (cancel_ctx f)).

(** ** The functions of discovery.go *)

Section Functions.
Context `{pkg : DiscoveryPackage}.

(** Lines 74-81 of [reload]: the strategy named by the tactics, or classic. *)
Definition target_strategy (p : ParametersAccessor) : string :=
  let strategy := "" in
  let strategy :=
    if negb (IsNil p) then String_ p ServerDiscoveryStrategy else strategy in
  if String.eqb strategy "" then DISCOVERY_STRATEGY_CLASSIC else strategy.

(** Lines 92-107 of [reload]: the strategy value for a strategy name. *)
Definition new_strategy (sup : SupportServices) (strategy : string)
  : M (error + DiscoveryStrategy) :=
  if String.eqb strategy DISCOVERY_STRATEGY_CONSISTENT then
    emit EvNewConsistentHashingDiscovery;;;
    match NewConsistentHashingDiscovery_err with
    | Some err => ret (inl (Trace err))
    | None => ret (inr ConsistentHashingDiscovery)
    end
  else if String.eqb strategy DISCOVERY_STRATEGY_CLASSIC then
    let key := Support.DiscoveryValueHMACKey sup in
    emit (EvNewClassicDiscovery key);;;
    match NewClassicDiscovery_err key RealClock with
    | Some err => ret (inl (Trace err))
    | None => ret (inr (ClassicDiscovery key RealClock))
    end
  else
    ret (inl (Tracef ("unknown strategy " ++ strategy)%string)).

(** [discovery.NewDiscovery(ctx, clock, servers, strategy)] *)
Definition NewDiscovery (ctx : ctx_id) (clock : Clock)
    (servers : list DiscoveryServer) (strategy : DiscoveryStrategy)
  : M (error + Component) :=
  emit (EvNewDiscovery ctx);;;
  match NewDiscovery_err clock servers strategy with
  | Some err => ret (inl err)
  | None => ret (inr (mkComponent ctx clock servers strategy))
  end.

(** Lines 124-140 of [reload]: the critical section. *)
Definition swap (d : loc) (component : Component) (cancel : CancelFunc)
    (strategy : string) : M unit :=
  emit (EvLock d);;;
  self <- load (Some d);;
  match cancelFunc self with
  | Some old => call_cancel old
  | None => ret tt
  end;;;
  store d (set_discovery component);;;
  store d (set_cancelFunc cancel);;;
  store d (set_currentStrategy strategy);;;
  emit (EvUnlock d).

(** Lines 109-145 of [reload]: build the component, swap it in, log. *)
Definition install (d : loc) (sup : SupportServices) (strategy : string)
    (discoveryStrategy : DiscoveryStrategy) : M (option error) :=
  made_ctx <- WithCancel;;
  let '(ctx, cancel) := made_ctx in
  made <- NewDiscovery ctx RealClock (Support.GetDiscoveryServers sup)
            discoveryStrategy;;
  match made with
  | inl err => call_cancel cancel;;; ret (Some (Trace err))
  | inr component =>
    swap d component cancel strategy;;;
    emit (EvLogStrategy strategy);;;
    ret None
  end.

(** Lines 89-145 of [reload]: everything after the test of line 85. *)
Definition rebuild (d : loc) (sup : SupportServices) (strategy : string)
  : M (option error) :=
  built <- new_strategy sup strategy;;
  match built with
  | inl err => ret (Some err)
  | inr discoveryStrategy => install d sup strategy discoveryStrategy
  end.

Definition reload (d : loc) (reloadedTactics : bool) : M (option error) :=
  self <- load (Some d);;
  sup <- load_support (support self);;
  match Support.ServerTacticsParametersCache sup NewGeoIPData with
  | inl err => ret (Some (Trace err))
  | inr p =>
    let strategy := target_strategy p in
    unchanged <-
      (if reloadedTactics then
         active <- load (Support.discovery sup);;
         ret (String.eqb (currentStrategy active) strategy)
       else ret false);;
    if (unchanged : bool) then ret None else rebuild d sup strategy
  end.

Definition newDiscovery (support : option loc)
  : M (option loc * option error) :=
  d <- alloc (mkDiscovery support "" None None);;
  err <- reload d false;;
  match err with
  | Some err => ret (None, Some (Trace err))
  | None => ret (Some d, None)
  end.

(** Dereference of the component inside [SelectServers]. *)
Definition load_component (c : option Component) : M Component :=
  match c with
  | Some component => ret component
  | None => panic
  end.

Definition DiscoverServers (d : loc) (clientIP : IP) : M (slice string) :=
  load (Some d);;;
  emit (EvRLock d);;;
  defer (emit (EvRUnlock d))
    (self <- load (Some d);;
     component <- load_component (discovery self);;
     let servers := SelectServers component clientIP in
     let encodedServerEntries := make0 in
     let encodedServerEntries :=
       fold_left (λ acc server, append acc (EncodedServerEntry server))
                 servers encodedServerEntries in
     ret encodedServerEntries).

End Functions.

(** ** Concrete collaborators and states *)

Definition no_failure : DiscoveryPackage := {|
  NewConsistentHashingDiscovery_err := None;
  NewClassicDiscovery_err := λ _ _, None;
  NewDiscovery_err := λ _ _ _, None;
  SelectServers := λ c _, comp_servers c
|}.

Definition server_a : DiscoveryServer := mkServer "entry-a" 1.
Definition server_b : DiscoveryServer := mkServer "entry-b" 2.

Definition tactics_of (name : string) : GeoIPData → error + ParametersAccessor :=
  λ _, inr (Some (λ _, name)).

Definition support_with (name : string) (active : option loc) : SupportServices :=
  Support.mk (tactics_of name) "key" [server_a; server_b] active.

Definition classic_component : Component :=
  mkComponent 0 RealClock [server_a; server_b]
    (ClassicDiscovery "key" RealClock).

Definition classic_orchestrator : Discovery :=
  mkDiscovery (Some 0) "classic" (Some classic_component) (Some (CancelOf 0)).

(** A server started with classic discovery: orchestrator 0 is built and
    registered in support services 0. *)
Definition σ_classic : State :=
  mkState {[ 0 := support_with "" (Some 0) ]}
          {[ 0 := classic_orchestrator ]} 1 [].

(** A server before [newDiscovery]: no orchestrator, none registered. *)
Definition σ_empty : State :=
  mkState {[ 0 := support_with "" None ]} ∅ 0 [].

(** The same server after the tactics changed to the strategy [name]. *)
Definition σ_tactics (name : string) : State :=
  mkState {[ 0 := support_with name (Some 0) ]}
          {[ 0 := classic_orchestrator ]} 1 [].

(** The classic server with tactics for the strategy [name], where no
    orchestrator has been registered in the support services. *)
Definition σ_unregistered (name : string) : State :=
  mkState {[ 0 := support_with name None ]}
          {[ 0 := classic_orchestrator ]} 1 [].

(** Two orchestrators on one support services value, which registers
    orchestrator 0; orchestrator 1 runs the consistent strategy, and the
    tactics name no strategy. *)
Definition σ_two : State :=
  mkState {[ 0 := support_with "" (Some 0) ]}
          {[ 0 := classic_orchestrator;
             1 := mkDiscovery (Some 0) "consistent"
                    (Some (mkComponent 1 RealClock [server_a]
                             ConsistentHashingDiscovery))
                    (Some (CancelOf 1)) ]}
          2 [].

(** The same two orchestrators, with orchestrator 1 registered. *)
Definition σ_other_registered : State :=
  mkState {[ 0 := support_with "" (Some 1) ]} (orchestrators σ_two) 2 [].

(** What a reload to the consistent strategy has built when it reaches
    line 124 on the classic server. *)
Definition consistent_component : Component :=
  mkComponent 1 RealClock [server_b] ConsistentHashingDiscovery.

(** Collaborators whose component constructor fails. *)
Definition component_failure : DiscoveryPackage := {|
  NewConsistentHashingDiscovery_err := None;
  NewClassicDiscovery_err := λ _ _, None;
  NewDiscovery_err := λ _ _ _, Some (ExternalError "no servers");
  SelectServers := λ c _, comp_servers c
|}.

(** ** Observations on states and traces *)

#[global] Instance CancelFunc_eq_dec : EqDecision CancelFunc.
Proof. solve_decision. Defined.

#[global] Instance Event_eq_dec : EqDecision Event.
Proof. solve_decision. Defined.

(** The events a call added to the trace. *)
Definition new_events (σ σ' : State) : list Event :=
  drop (length (trace σ)) (trace σ').

(** Where the write lock of an orchestrator stands in a trace. *)
Inductive LockPhase : Type := NotLocked | Held | Released.

Definition phase_after (d : loc) (ph : LockPhase) (e : Event) : LockPhase :=
  match e with
  | EvLock d' => if decide (d' = d) then Held else ph
  | EvUnlock d' => if decide (d' = d) then Released else ph
  | _ => ph
  end.

(** The phase of the write lock of [d] at each call, in [evs], of the
    cancel function of context [c]; one entry per call. *)
Fixpoint cancel_phases (d : loc) (c : ctx_id) (ph : LockPhase)
    (evs : list Event) : list LockPhase :=
  match evs with
  | [] => []
  | e :: rest =>
      (if decide (e = EvCancel c) then [ph] else [])
        ++ cancel_phases d c (phase_after d ph e) rest
  end.

(** The cancel function [f] is called in [evs] exactly once, and then the
    write lock of [d] has been released. *)
Definition cancelled_after_release (d : loc) (f : CancelFunc)
    (evs : list Event) : Prop :=
  cancel_phases d (cancel_ctx f) NotLocked evs = [Released].

(** The cancel function [f] is called in [evs] exactly once, and then the
    write lock of [d] is held. *)
Definition cancelled_inside_lock (d : loc) (f : CancelFunc)
    (evs : list Event) : Prop :=
  cancel_phases d (cancel_ctx f) NotLocked evs = [Held].

(** The value of the test of line 85 in state [σ]:
    [reloadedTactics && d.support.discovery.currentStrategy == strategy]. *)
Definition short_circuits (d : loc) (reloadedTactics : bool) (σ : State) : bool :=
  reloadedTactics &&
  match
    self ← orchestrators σ !! d;
    s ← support self;
    sup ← supports σ !! s;
    p ← match Support.ServerTacticsParametersCache sup NewGeoIPData with
        | inr p => Some p
        | inl _ => None
        end;
    a ← Support.discovery sup;
    active ← orchestrators σ !! a;
    Some (String.eqb (currentStrategy active) (target_strategy p))
  with
  | Some b => b
  | None => false
  end.

(** The same state up to the trace. *)
Definition same_store (σ σ' : State) : Prop :=
  supports σ' = supports σ ∧ orchestrators σ' = orchestrators σ.

(** The events of the cancel call inside the critical section. *)
Definition old_cancel_events (o : Discovery) : list Event :=
  match cancelFunc o with
  | Some old => [EvCancel (cancel_ctx old)]
  | None => []
  end.

(** The orchestrator after the three assignments of lines 136-138. *)
Definition installed (o : Discovery) (sup : SupportServices)
    (strategy : string) (ds : DiscoveryStrategy) (c : ctx_id) : Discovery :=
  mkDiscovery (support o) strategy
    (Some (mkComponent c RealClock (Support.GetDiscoveryServers sup) ds))
    (Some (CancelOf c)).

Section Calls.
Context `{pkg : DiscoveryPackage}.

(** The constructor of package [discovery] called for a strategy name:
    the event of the call and its result; [None] for an unknown name. *)
Definition strategy_call (sup : SupportServices) (strategy : string)
  : option (Event * (error + DiscoveryStrategy)) :=
  if String.eqb strategy DISCOVERY_STRATEGY_CONSISTENT then
    Some (EvNewConsistentHashingDiscovery,
          match NewConsistentHashingDiscovery_err with
          | Some err => inl err
          | None => inr ConsistentHashingDiscovery
          end)
  else if String.eqb strategy DISCOVERY_STRATEGY_CLASSIC then
    let key := Support.DiscoveryValueHMACKey sup in
    Some (EvNewClassicDiscovery key,
          match NewClassicDiscovery_err key RealClock with
          | Some err => inl err
          | None => inr (ClassicDiscovery key RealClock)
          end)
  else None.

Definition with_event (σ : State) (e : Event) : State :=
  mkState (supports σ) (orchestrators σ) (next_ctx σ) (trace σ ++ [e]).

End Calls.

(** The state after the read lock was taken and released. *)
Definition read_locked (d : loc) (σ : State) : State :=
  mkState (supports σ) (orchestrators σ) (next_ctx σ)
          (trace σ ++ [EvRLock d; EvRUnlock d]).

(** The strategy name the tactics yield: empty for nil parameters. *)
Definition fetched_name (p : ParametersAccessor) : string :=
  if IsNil p then "" else String_ p ServerDiscoveryStrategy.

(** A name that is set and is none of the two strategy names. *)
Definition unrecognized (name : string) : Prop :=
  name ≠ "" ∧ name ≠ DISCOVERY_STRATEGY_CLASSIC ∧
  name ≠ DISCOVERY_STRATEGY_CONSISTENT.

(** The names line 138 can have stored, and the initial empty name. *)
Definition recorded_name (name : string) : Prop :=
  name = "" ∨ name = DISCOVERY_STRATEGY_CLASSIC ∨
  name = DISCOVERY_STRATEGY_CONSISTENT.

Section Failures.
Context `{pkg : DiscoveryPackage}.

(** The construction of the strategy value or of the component fails for
    a strategy name. *)
Definition construction_fails (sup : SupportServices) (strategy : string)
  : Prop :=
  match strategy_call sup strategy with
  | Some (_, inl _) => True
  | Some (_, inr ds) =>
      is_Some (NewDiscovery_err RealClock (Support.GetDiscoveryServers sup) ds)
  | None => False
  end.

End Failures.

(** The orchestrator holds a component and a cancel function, both made
    from contexts allocated so far. *)
Definition initialised (σ : State) (d : loc) : Prop :=
  ∃ o c f, orchestrators σ !! d = Some o ∧
    discovery o = Some c ∧ cancelFunc o = Some f ∧
    comp_ctx c < next_ctx σ ∧ cancel_ctx f < next_ctx σ.

(** The state after a [reload] that went through the critical section. *)
Definition swapped (σ : State) (d : loc) (o : Discovery)
    (sup : SupportServices) (strategy : string) (ev : Event)
    (ds : DiscoveryStrategy) : State :=
  let c := next_ctx σ in
  mkState (supports σ)
    (<[d := installed o sup strategy ds c]> (orchestrators σ))
    (S c)
    (trace σ ++ [ev; EvWithCancel c; EvNewDiscovery c; EvLock d]
       ++ old_cancel_events o ++ [EvUnlock d; EvLogStrategy strategy]).

(** Every orchestrator holds a name that line 138 can have stored. *)
Definition well_named (σ : State) : Prop :=
  ∀ d o, orchestrators σ !! d = Some o → recorded_name (currentStrategy o).

(** One operation on the store: a call of one of the three functions,
    with any collaborators, or a change of the support services made by
    the rest of the server (new tactics, a registration). *)
Inductive op_step : State → State → Prop :=
| step_reload (pkg : DiscoveryPackage) d reloadedTactics σ :
    op_step σ (reload d reloadedTactics σ).2
| step_DiscoverServers (pkg : DiscoveryPackage) d clientIP σ :
    op_step σ (DiscoverServers d clientIP σ).2
| step_newDiscovery (pkg : DiscoveryPackage) s σ :
    op_step σ (newDiscovery s σ).2
| step_support σ sups :
    op_step σ (mkState sups (orchestrators σ) (next_ctx σ) (trace σ)).

(** ** Interleaving semantics of the critical sections

    One thread runs lines 124-140 of [reload] on an orchestrator while
    reader threads run [DiscoverServers] on it; a step is one statement of
    one thread. The [sync.RWMutex] is the flag of the writer that holds it
    and the set of the reader threads that hold it: [Lock] waits until
    nobody holds it, [RLock] waits while the writer holds it. *)

Record RWMutex : Type := mkRWMutex {
  w_held : bool;
  r_held : gset nat
}.

(** The statement the thread of [reload] executes next. *)
Inductive WriterPC : Type :=
| WLock                (* line 124: d.Lock() *)
| WCancel              (* lines 132-134: d.cancelFunc() *)
| WStoreDiscovery      (* line 136 *)
| WStoreCancelFunc     (* line 137 *)
| WStoreStrategy       (* line 138 *)
| WUnlock              (* line 140: d.Unlock() *)
| WReturned.

(** The statement a thread of [DiscoverServers] executes next; [seen] is
    the orchestrator as it was when the thread took the read lock. *)
Inductive ReaderPC : Type :=
| RRLock                                                   (* line 153 *)
| RSelect (seen : Discovery)                               (* line 156 *)
| REncode (seen : Discovery) (servers : list DiscoveryServer) (* 158-162 *)
| RReturn (seen : Discovery) (encoded : slice string)      (* line 164 *)
| RReturned (result : Outcome (slice string)).

Record Config : Type := mkConfig {
  obj : Discovery;
  mu : RWMutex;
  wpc : WriterPC;
  readers : list ReaderPC;
  cancelled : list ctx_id
}.

(** One race: the orchestrator before the reload, the values [reload] has
    built when it reaches line 124, and the client IP of each reader
    thread. *)
Class Race : Type := {
  race_before : Discovery;
  built_component : Component;
  built_cancelFunc : CancelFunc;
  built_strategy : string;
  reader_IP : nat → IP
}.

Section Interleaving.
Context `{pkg : DiscoveryPackage} `{race : Race}.

Inductive writer_step : Config → Config → Prop :=
| w_lock o held rs log :
    held = ∅ →
    writer_step (mkConfig o (mkRWMutex false held) WLock rs log)
                (mkConfig o (mkRWMutex true held) WCancel rs log)
| w_cancel o m rs log :
    writer_step (mkConfig o m WCancel rs log)
                (mkConfig o m WStoreDiscovery rs
                   (log ++ match cancelFunc o with
                           | Some old => [cancel_ctx old]
                           | None => []
                           end))
| w_store_discovery o m rs log :
    writer_step (mkConfig o m WStoreDiscovery rs log)
                (mkConfig (set_discovery built_component o) m
                   WStoreCancelFunc rs log)
| w_store_cancelFunc o m rs log :
    writer_step (mkConfig o m WStoreCancelFunc rs log)
                (mkConfig (set_cancelFunc built_cancelFunc o) m
                   WStoreStrategy rs log)
| w_store_strategy o m rs log :
    writer_step (mkConfig o m WStoreStrategy rs log)
                (mkConfig (set_currentStrategy built_strategy o) m
                   WUnlock rs log)
| w_unlock o held rs log :
    writer_step (mkConfig o (mkRWMutex true held) WUnlock rs log)
                (mkConfig o (mkRWMutex false held) WReturned rs log).

(** A step of reader thread [i]: its next statement, the mutex before and
    after, its program counter after. The shared orchestrator is read, never
    written. *)
Inductive reader_step (i : nat) (o : Discovery)
  : ReaderPC → RWMutex → ReaderPC → RWMutex → Prop :=
| r_rlock held :
    reader_step i o RRLock (mkRWMutex false held)
                (RSelect o) (mkRWMutex false ({[i]} ∪ held))
| r_select seen m c :
    discovery o = Some c →
    reader_step i o (RSelect seen) m
                (REncode seen (SelectServers c (reader_IP i))) m
| r_select_nil seen w held :
    discovery o = None →
    reader_step i o (RSelect seen) (mkRWMutex w held)
                (RReturned Panics) (mkRWMutex w (held ∖ {[i]}))
| r_encode seen servers m :
    reader_step i o (REncode seen servers) m
                (RReturn seen
                   (fold_left
                      (λ acc server, append acc (EncodedServerEntry server))
                      servers make0)) m
| r_return seen encoded w held :
    reader_step i o (RReturn seen encoded) (mkRWMutex w held)
                (RReturned (Returns encoded)) (mkRWMutex w (held ∖ {[i]})).

Inductive cstep : Config → Config → Prop :=
| cstep_writer cfg cfg' :
    writer_step cfg cfg' → cstep cfg cfg'
| cstep_reader i o m w rs log r r' m' :
    rs !! i = Some r →
    reader_step i o r m r' m' →
    cstep (mkConfig o m w rs log)
          (mkConfig o m' w (<[i := r']> rs) log).

(** What [DiscoverServers] returns, run alone, on the orchestrator [o]. *)
Definition sequential_result (o : Discovery) (ip : IP)
  : Outcome (slice string) :=
  (DiscoverServers 0 ip (mkState ∅ {[ 0 := o ]} 0 [])).1.

(** The orchestrator after the reload. *)
Definition reloaded : Discovery :=
  set_currentStrategy built_strategy
    (set_cancelFunc built_cancelFunc
       (set_discovery built_component race_before)).

(** All threads at their first statement, the mutex free. *)
Definition initial (n : nat) : Config :=
  mkConfig race_before (mkRWMutex false ∅) WLock (replicate n RRLock) [].

(** What a reader thread has seen of the orchestrator. *)
Definition reader_view (cfg : Config) (i : nat) : Prop :=
  match readers cfg !! i with
  | Some (RSelect seen) | Some (REncode seen _) | Some (RReturn seen _) =>
      obj cfg = seen ∧ (seen = race_before ∨ seen = reloaded)
  | Some (RReturned result) =>
      result = sequential_result race_before (reader_IP i) ∨
      result = sequential_result reloaded (reader_IP i)
  | Some RRLock | None => True
  end.

(** The orchestrator and the flag of the writer, for each statement the
    thread of [reload] can be at. *)
Definition writer_inv (cfg : Config) : Prop :=
  match wpc cfg with
  | WLock => obj cfg = race_before ∧ w_held (mu cfg) = false
  | WCancel | WStoreDiscovery =>
      obj cfg = race_before ∧ w_held (mu cfg) = true
  | WStoreCancelFunc =>
      obj cfg = set_discovery built_component race_before ∧
      w_held (mu cfg) = true
  | WStoreStrategy =>
      obj cfg = set_cancelFunc built_cancelFunc
                  (set_discovery built_component race_before) ∧
      w_held (mu cfg) = true
  | WUnlock => obj cfg = reloaded ∧ w_held (mu cfg) = true
  | WReturned => obj cfg = reloaded ∧ w_held (mu cfg) = false
  end.

(** A reader thread holds the read lock exactly between its [RLock] and
    its return, and what it computed comes from the orchestrator it saw. *)
Definition reader_inv (cfg : Config) (i : nat) (r : ReaderPC) : Prop :=
  match r with
  | RRLock => i ∉ r_held (mu cfg)
  | RSelect seen => i ∈ r_held (mu cfg) ∧ obj cfg = seen
  | REncode seen servers =>
      i ∈ r_held (mu cfg) ∧ obj cfg = seen ∧
      ∃ c, discovery seen = Some c ∧ servers = SelectServers c (reader_IP i)
  | RReturn seen encoded =>
      i ∈ r_held (mu cfg) ∧ obj cfg = seen ∧
      Returns encoded = sequential_result seen (reader_IP i)
  | RReturned result =>
      (i ∉ r_held (mu cfg)) ∧
      (result = sequential_result race_before (reader_IP i) ∨
       result = sequential_result reloaded (reader_IP i))
  end.

Definition inv (cfg : Config) : Prop :=
  writer_inv cfg ∧
  (w_held (mu cfg) = true → r_held (mu cfg) = ∅) ∧
  ∀ i r, readers cfg !! i = Some r → reader_inv cfg i r.

End Interleaving.

(** The classic server, a reload to the consistent strategy, and readers
    that all send the empty IP. *)
Definition race_to_consistent : Race := {|
  race_before := classic_orchestrator;
  built_component := consistent_component;
  built_cancelFunc := CancelOf 1;
  built_strategy := "consistent";
  reader_IP := λ _, []
|}.

(** The state after reader 0, the reload and reader 1 have run, in that
    order, from the classic server. *)
Definition cfg_after_race : Config :=
  mkConfig (mkDiscovery (Some 0) "consistent" (Some consistent_component)
              (Some (CancelOf 1)))
           (mkRWMutex false ∅) WReturned
           [RReturned (Returns (Slice ["entry-a"; "entry-b"]));
            RReturned (Returns (Slice ["entry-b"]))]
           [0].

(** ** Further observations, for the properties beyond the claims *)

(** The event of a strategy constructor of package [discovery]. *)
Definition constructor_event (ev : Event) : Prop :=
  ev = EvNewConsistentHashingDiscovery ∨ ∃ key, ev = EvNewClassicDiscovery key.

(** The state after a [reload] whose [discovery.NewDiscovery] failed
    (lines 119-122): the context made at line 112 has been cancelled. *)
Definition abandoned (σ : State) (ev : Event) : State :=
  let c := next_ctx σ in
  mkState (supports σ) (orchestrators σ) (S c)
    (trace σ ++ [ev; EvWithCancel c; EvNewDiscovery c; EvCancel c]).

(** The phase of the write lock of [d] at the end of [evs]. *)
Definition final_phase (d : loc) (evs : list Event) : LockPhase :=
  fold_left (phase_after d) evs NotLocked.

(** The number of read locks of [d] held at the end of [evs]; [None] when
    [evs] releases a read lock that is not held. *)
Fixpoint read_depth (d : loc) (depth : nat) (evs : list Event) : option nat :=
  match evs with
  | [] => Some depth
  | EvRLock d' :: rest =>
      read_depth d (if decide (d' = d) then S depth else depth) rest
  | EvRUnlock d' :: rest =>
      if decide (d' = d) then
        match depth with
        | O => None
        | S depth' => read_depth d depth' rest
        end
      else read_depth d depth rest
  | _ :: rest => read_depth d depth rest
  end.

(** A strategy name describes a strategy value. *)
Definition names_strategy (name : string) (ds : DiscoveryStrategy) : Prop :=
  match ds with
  | ClassicDiscovery _ _ => name = DISCOVERY_STRATEGY_CLASSIC
  | ConsistentHashingDiscovery => name = DISCOVERY_STRATEGY_CONSISTENT
  end.

(** The three fields that [reload] assigns agree with each other: either
    the orchestrator is as [&Discovery{}] left it, or its cancel function
    cancels the context of its component and its name describes the
    strategy of its component. *)
Definition coherent (o : Discovery) : Prop :=
  match discovery o, cancelFunc o with
  | Some c, Some f =>
      cancel_ctx f = comp_ctx c ∧
      names_strategy (currentStrategy o) (comp_strategy c)
  | None, None => currentStrategy o = ""
  | _, _ => False
  end.

Definition coherent_store (σ : State) : Prop :=
  ∀ d o, orchestrators σ !! d = Some o → coherent o.

(** No cancel function in place has been called: all cancelled contexts
    and all contexts in place are allocated, a context in place is not
    cancelled, and two orchestrators hold different cancel functions. *)
Definition live_store (σ : State) : Prop :=
  (∀ c, In (EvCancel c) (trace σ) → c < next_ctx σ) ∧
  (∀ d o f, orchestrators σ !! d = Some o → cancelFunc o = Some f →
     cancel_ctx f < next_ctx σ ∧ ¬ In (EvCancel (cancel_ctx f)) (trace σ)) ∧
  (∀ d1 d2 o1 o2 f, d1 ≠ d2 →
     orchestrators σ !! d1 = Some o1 → orchestrators σ !! d2 = Some o2 →
     cancelFunc o1 = Some f → cancelFunc o2 ≠ Some f).

(** Whether a reader thread is between its [RLock] and its return. *)
Definition reading (r : ReaderPC) : bool :=
  match r with
  | RSelect _ | REncode _ _ | RReturn _ _ => true
  | RRLock | RReturned _ => false
  end.

Definition returned (r : ReaderPC) : bool :=
  match r with RReturned _ => true | _ => false end.

(** The writer is between its [Lock] and its [Unlock]. *)
Definition in_critical_section (w : WriterPC) : bool :=
  match w with
  | WLock | WReturned => false
  | _ => true
  end.

(** All threads have returned. *)
Definition finished (cfg : Config) : Prop :=
  wpc cfg = WReturned ∧
  ∀ i r, readers cfg !! i = Some r → returned r = true.

Section InterleavingMore.
Context `{pkg : DiscoveryPackage} `{race : Race}.

(** The contexts the reload cancels: the one of the cancel function in
    place before it, if any. *)
Definition old_contexts : list ctx_id :=
  match cancelFunc race_before with
  | Some old => [cancel_ctx old]
  | None => []
  end.

(** The read lock is held by reader threads only, and the cancel call of
    line 133 has been made exactly when the writer is past it. *)
Definition inv_log (cfg : Config) : Prop :=
  (∀ i, i ∈ r_held (mu cfg) → is_Some (readers cfg !! i)) ∧
  cancelled cfg = match wpc cfg with
                  | WLock | WCancel => []
                  | _ => old_contexts
                  end.

End InterleavingMore.

(** * Theorems *)

Section BasicFacts.
Context `{pkg : DiscoveryPackage}.

Lemma new_events_app σ σ' evs :
  trace σ' = trace σ ++ evs → new_events σ σ' = evs.
Proof.
  intros H. unfold new_events. rewrite H. apply drop_app_length.
Qed.

Lemma target_strategy_nonempty p : target_strategy p ≠ "".
Proof.
  unfold target_strategy.
  destruct (String.eqb _ "") eqn:E; [done |].
  by apply String.eqb_neq in E.
Qed.

(** The critical section, run from a state where [d] is allocated. *)
Lemma swap_run d component cancel strategy σ o :
  orchestrators σ !! d = Some o →
  swap d component cancel strategy σ =
  (Returns tt,
   mkState (supports σ)
     (<[d := mkDiscovery (support o) strategy (Some component) (Some cancel)]>
        (orchestrators σ))
     (next_ctx σ)
     (trace σ ++ [EvLock d]
        ++ match cancelFunc o with
           | Some old => [EvCancel (cancel_ctx old)]
           | None => []
           end
        ++ [EvUnlock d])).
Proof.
  intros Hd. unfold swap, bind, emit, load, store, call_cancel, ret; simpl.
  rewrite Hd; simpl.
  destruct (cancelFunc o) as [old|] eqn:Hc; simpl;
    repeat (first [rewrite Hd | rewrite lookup_insert_eq]; simpl);
    rewrite !insert_insert_eq, <- !app_assoc; simpl;
    by rewrite ?Hc.
Qed.

Lemma install_run d sup strategy ds σ o :
  orchestrators σ !! d = Some o →
  install d sup strategy ds σ =
  let c := next_ctx σ in
  match NewDiscovery_err RealClock (Support.GetDiscoveryServers sup) ds with
  | Some err =>
      (Returns (Some (Trace err)),
       mkState (supports σ) (orchestrators σ) (S c)
         (trace σ ++ [EvWithCancel c; EvNewDiscovery c; EvCancel c]))
  | None =>
      (Returns None,
       mkState (supports σ)
         (<[d := installed o sup strategy ds c]> (orchestrators σ))
         (S c)
         (trace σ ++ [EvWithCancel c; EvNewDiscovery c; EvLock d]
            ++ old_cancel_events o
            ++ [EvUnlock d; EvLogStrategy strategy]))
  end.
Proof.
  intros Hd. unfold install, NewDiscovery, bind at 1 2 3; simpl.
  destruct (NewDiscovery_err _ _ _) as [err|]; simpl.
  - unfold bind, ret, call_cancel, emit; simpl. by rewrite <- !app_assoc.
  - unfold bind at 1. erewrite swap_run by (simpl; exact Hd). simpl.
    unfold bind, emit, ret, old_cancel_events; simpl.
    destruct (cancelFunc o); simpl; by rewrite <- !app_assoc.
Qed.

Lemma rebuild_run d sup strategy σ :
  rebuild d sup strategy σ =
  match strategy_call sup strategy with
  | None => (Returns (Some (Tracef ("unknown strategy " ++ strategy)%string)), σ)
  | Some (ev, inl err) => (Returns (Some (Trace err)), with_event σ ev)
  | Some (ev, inr ds) => install d sup strategy ds (with_event σ ev)
  end.
Proof.
  unfold rebuild, new_strategy, strategy_call, bind at 1.
  destruct (String.eqb strategy DISCOVERY_STRATEGY_CONSISTENT).
  { unfold bind, emit, ret; simpl.
    by destruct NewConsistentHashingDiscovery_err. }
  destruct (String.eqb strategy DISCOVERY_STRATEGY_CLASSIC).
  { unfold bind, emit, ret; simpl.
    by destruct (NewClassicDiscovery_err _ _). }
  done.
Qed.

(** [reload] from a state where the receiver and its support services are
    allocated. *)
Lemma reload_run d reloadedTactics σ o s sup :
  orchestrators σ !! d = Some o →
  support o = Some s →
  supports σ !! s = Some sup →
  reload d reloadedTactics σ =
  match Support.ServerTacticsParametersCache sup NewGeoIPData with
  | inl err => (Returns (Some (Trace err)), σ)
  | inr p =>
      if reloadedTactics then
        match Support.discovery sup ≫= (λ a, orchestrators σ !! a) with
        | None => (Panics, σ)
        | Some active =>
            if String.eqb (currentStrategy active) (target_strategy p)
            then (Returns None, σ)
            else rebuild d sup (target_strategy p) σ
        end
      else rebuild d sup (target_strategy p) σ
  end.
Proof.
  intros Hd Hs Hsup. unfold reload, bind at 1 2, load, load_support; simpl.
  rewrite Hd; simpl. rewrite Hs; simpl. rewrite Hsup.
  destruct (Support.ServerTacticsParametersCache sup NewGeoIPData) as [e|p];
    [done |].
  destruct reloadedTactics; [| done].
  unfold bind at 1 2.
  destruct (Support.discovery sup ≫= _) as [active|]; [| done].
  unfold ret. by destruct (String.eqb _ _).
Qed.

(** Without the receiver or its support services the first line panics. *)
Lemma reload_panics_unallocated d reloadedTactics σ :
  (orchestrators σ !! d ≫= support) ≫= (λ s, supports σ !! s) = None →
  reload d reloadedTactics σ = (Panics, σ).
Proof.
  unfold reload, bind at 1 2, load, load_support; simpl.
  destruct (orchestrators σ !! d) as [o|]; simpl; [| done].
  by intros ->.
Qed.

End BasicFacts.

(** ** [DiscoverServers] *)

Section DiscoverServersFacts.
Context `{pkg : DiscoveryPackage}.

(** The loop of lines 160-162 appends the encoded entries in order. *)
Lemma encode_loop (servers : list DiscoveryServer) (acc : list string) :
  fold_left (λ acc server, append acc (EncodedServerEntry server))
            servers (Slice acc)
  = Slice (acc ++ map EncodedServerEntry servers).
Proof.
  revert acc. induction servers as [|server servers IH]; intros acc; simpl.
  - by rewrite app_nil_r.
  - rewrite IH. by rewrite <- app_assoc.
Qed.

Lemma DiscoverServers_run d clientIP σ :
  DiscoverServers d clientIP σ =
  match orchestrators σ !! d with
  | None => (Panics, σ)
  | Some self =>
      (match discovery self with
       | Some component =>
           Returns (Slice (map EncodedServerEntry
                             (SelectServers component clientIP)))
       | None => Panics
       end,
       read_locked d σ)
  end.
Proof.
  unfold DiscoverServers, bind at 1 2, load, emit, defer, read_locked; simpl.
  destruct (orchestrators σ !! d) as [self|] eqn:Hd; simpl; [| done].
  unfold bind at 1; simpl. rewrite Hd; simpl.
  destruct (discovery self) as [component|]; simpl.
  - unfold bind, ret, make0; simpl. rewrite encode_loop; simpl.
    by rewrite <- app_assoc.
  - unfold bind, panic; simpl. by rewrite <- app_assoc.
Qed.

(** [DiscoverServers] writes to the trace only. *)
Lemma DiscoverServers_frame d clientIP σ :
  same_store σ (DiscoverServers d clientIP σ).2 ∧
  next_ctx (DiscoverServers d clientIP σ).2 = next_ctx σ.
Proof.
  rewrite DiscoverServers_run.
  by destruct (orchestrators σ !! d).
Qed.

End DiscoverServersFacts.

(** C6: with a component in place, [DiscoverServers] returns the
    [EncodedServerEntry] fields of the servers that the component's
    [SelectServers] returns for the client IP, in the same order and in the
    same number; the result is a non-nil slice, empty when nothing is
    selected; the result type has no error. *)
Theorem DiscoverServers_encodes_selection `{pkg : DiscoveryPackage}
    (d : loc) (clientIP : IP) (σ : State) (self : Discovery)
    (component : Component) :
  orchestrators σ !! d = Some self →
  discovery self = Some component →
  let selected := SelectServers component clientIP in
  ∃ entries : list string,
    (DiscoverServers d clientIP σ).1 = Returns (Slice entries) ∧
    entries = map EncodedServerEntry selected ∧
    length entries = length selected ∧
    (∀ i, entries !! i = EncodedServerEntry <$> selected !! i) ∧
    (selected = [] → entries = []) ∧
    Slice entries ≠ nil_slice.
Proof.
  intros Hd Hc selected.
  exists (map EncodedServerEntry selected).
  rewrite DiscoverServers_run, Hd, Hc; simpl.
  repeat split.
  - apply length_map.
  - intros i. apply list_lookup_fmap.
  - by intros ->.
  - done.
Qed.

Lemma DiscoverServers_encodes_selection_witness :
  ∃ entries : list string,
    (@DiscoverServers no_failure 0 [] σ_classic).1 = Returns (Slice entries) ∧
    entries = ["entry-a"; "entry-b"].
Proof.
  destruct (@DiscoverServers_encodes_selection no_failure 0 [] σ_classic
              classic_orchestrator classic_component eq_refl eq_refl)
    as (entries & Hres & Hmap & _).
  exists entries. split; [exact Hres | exact Hmap].
Defined.

(** C10: [DiscoverServers] is read-only: after the call, for every client
    IP and whatever the outcome, every orchestrator has the strategy name,
    the component and the cancel function it had before (and the support
    services and the context counter are the same). *)
Theorem DiscoverServers_read_only `{pkg : DiscoveryPackage}
    (d : loc) (clientIP : IP) (σ : State) :
  let σ' := (DiscoverServers d clientIP σ).2 in
  orchestrators σ' = orchestrators σ ∧
  supports σ' = supports σ ∧
  next_ctx σ' = next_ctx σ ∧
  ∀ d' : loc,
    currentStrategy <$> orchestrators σ' !! d'
      = currentStrategy <$> orchestrators σ !! d' ∧
    discovery <$> orchestrators σ' !! d'
      = discovery <$> orchestrators σ !! d' ∧
    cancelFunc <$> orchestrators σ' !! d'
      = cancelFunc <$> orchestrators σ !! d'.
Proof.
  intros σ'. subst σ'.
  destruct (DiscoverServers_frame d clientIP σ) as [[Hs Ho] Hn].
  rewrite Ho. by repeat split.
Qed.

(** ** [reload]: errors *)

Section ReloadErrors.
Context `{pkg : DiscoveryPackage}.

Lemma allocated_or_not d σ :
  (∃ o s sup, orchestrators σ !! d = Some o ∧ support o = Some s ∧
              supports σ !! s = Some sup) ∨
  (orchestrators σ !! d ≫= support) ≫= (λ s, supports σ !! s) = None.
Proof.
  destruct (orchestrators σ !! d) as [o|] eqn:Hd; simpl; [| by right].
  destruct (support o) as [s|] eqn:Hs; simpl; [| by right].
  destruct (supports σ !! s) as [sup|] eqn:Hsup; [| by right].
  left. by exists o, s, sup.
Qed.




End ReloadErrors.


Section ReloadDecision.
Context `{pkg : DiscoveryPackage}.

Lemma short_circuits_run d reloadedTactics σ o s sup p :
  orchestrators σ !! d = Some o →
  support o = Some s →
  supports σ !! s = Some sup →
  Support.ServerTacticsParametersCache sup NewGeoIPData = inr p →
  short_circuits d reloadedTactics σ =
  reloadedTactics &&
  match Support.discovery sup ≫= (λ a, orchestrators σ !! a) with
  | Some active => String.eqb (currentStrategy active) (target_strategy p)
  | None => false
  end.
Proof.
  intros Hd Hs Hsup Hp. unfold short_circuits.
  rewrite Hd; simpl. rewrite Hs; simpl. rewrite Hsup; simpl.
  rewrite Hp; simpl.
  destruct (Support.discovery sup) as [a|]; simpl; [| done].
  by destruct (orchestrators σ !! a).
Qed.

Lemma target_strategy_fetched p :
  target_strategy p =
  if String.eqb (fetched_name p) "" then DISCOVERY_STRATEGY_CLASSIC
  else fetched_name p.
Proof. unfold target_strategy, fetched_name. by destruct (IsNil p). Qed.

Lemma strategy_call_None sup strategy :
  strategy_call sup strategy = None ↔
  strategy ≠ DISCOVERY_STRATEGY_CONSISTENT ∧
  strategy ≠ DISCOVERY_STRATEGY_CLASSIC.
Proof.
  unfold strategy_call.
  destruct (String.eqb_spec strategy DISCOVERY_STRATEGY_CONSISTENT) as [->|Hc].
  { split; [done | by intros [? _]]. }
  destruct (String.eqb_spec strategy DISCOVERY_STRATEGY_CLASSIC) as [->|Hk].
  { split; [done | by intros [_ ?]]. }
  done.
Qed.

Lemma unknown_target sup p :
  strategy_call sup (target_strategy p) = None ↔ unrecognized (fetched_name p).
Proof.
  rewrite strategy_call_None, target_strategy_fetched. unfold unrecognized.
  destruct (String.eqb_spec (fetched_name p) "") as [Heq|Hne].
  - rewrite Heq. split; [by intros [_ ?] | by intros [? _]].
  - split; [by intros [? ?] | by intros (_ & ? & ?)].
Qed.

Lemma unrecognized_target p :
  unrecognized (fetched_name p) → target_strategy p = fetched_name p.
Proof.
  intros [Hne _]. rewrite target_strategy_fetched.
  by destruct (String.eqb_spec (fetched_name p) "").
Qed.

(** A recorded name never equals an unrecognized target, so the test of
    line 85 fails for it. *)
Lemma recorded_not_unrecognized active p :
  recorded_name (currentStrategy active) →
  unrecognized (fetched_name p) →
  String.eqb (currentStrategy active) (target_strategy p) = false.
Proof.
  intros Hrec Hun. rewrite (unrecognized_target _ Hun).
  apply String.eqb_neq. intros Heq. rewrite Heq in Hrec.
  destruct Hun as (? & ? & ?). by destruct Hrec as [?|[?|?]].
Qed.

Lemma rebuild_error_iff d sup strategy σ o :
  orchestrators σ !! d = Some o →
  (∃ err, (rebuild d sup strategy σ).1 = Returns (Some err)) ↔
  strategy_call sup strategy = None ∨ construction_fails sup strategy.
Proof.
  intros Hd. rewrite rebuild_run. unfold construction_fails.
  destruct (strategy_call sup strategy) as [[ev [e|ds]]|]; simpl.
  - split; [by right | by eexists].
  - erewrite install_run by (simpl; exact Hd). simpl.
    destruct (NewDiscovery_err _ _ _) as [e|]; simpl.
    + split; [by right | by eexists].
    + split; [by intros [? ?] | ]. intros [? | [? ?]]; done.
  - split; [by left | by eexists].
Qed.

Lemma rebuild_unknown d sup strategy σ :
  strategy_call sup strategy = None →
  rebuild d sup strategy σ =
  (Returns (Some (Tracef ("unknown strategy " ++ strategy)%string)), σ).
Proof. intros H. by rewrite rebuild_run, H. Qed.

End ReloadDecision.

(** C3 (as stated, refuted): with [reloadedTactics = true], tactics that
    name the unrecognized strategy "bogus" and no orchestrator registered
    in the support services, [reload] panics at line 85 and returns no
    error. *)
Lemma reload_unrecognized_panics_counterexample :
  let σ := σ_unregistered "bogus" in
  let run := @reload no_failure 0 true σ in
  (∃ p, Support.ServerTacticsParametersCache (support_with "bogus" None)
          NewGeoIPData = inr p ∧
        fetched_name p = "bogus" ∧ unrecognized (fetched_name p)) ∧
  run = (Panics, σ) ∧
  ¬ ∃ err, run.1 = Returns (Some err).
Proof.
  split; [| split].
  - eexists. split; [reflexivity |]. split; [reflexivity |].
    repeat split; discriminate.
  - reflexivity.
  - intros [err Herr]. discriminate Herr.
Qed.

(** C3 (amended): from a state where the receiver and its support
    services exist, a failed tactics fetch always gives an error. After a
    successful fetch, with [reloadedTactics = true] and no orchestrator
    registered in [d.support.discovery], [reload] panics at line 85 and
    returns nothing. Otherwise [reload] returns an error exactly when it
    gets past the test of line 85 and the fetched name is set and is
    neither classic nor consistent, or a construction fails. With
    [reloadedTactics = false], or a registered orchestrator holding a name
    [reload] can have stored, an unrecognized name always gets past
    line 85 and gives the error "unknown strategy <name>". *)
Theorem reload_error_or_panic `{pkg : DiscoveryPackage}
    (d : loc) (reloadedTactics : bool) (σ : State)
    (o : Discovery) (s : loc) (sup : SupportServices) :
  orchestrators σ !! d = Some o →
  support o = Some s →
  supports σ !! s = Some sup →
  let fetch := Support.ServerTacticsParametersCache sup NewGeoIPData in
  let registered := Support.discovery sup ≫= (λ a, orchestrators σ !! a) in
  (∀ e, fetch = inl e →
     reload d reloadedTactics σ = (Returns (Some (Trace e)), σ)) ∧
  (∀ p, fetch = inr p → reloadedTactics = true → registered = None →
     reload d reloadedTactics σ = (Panics, σ)) ∧
  (∀ p, fetch = inr p →
     (reloadedTactics = true → is_Some registered) →
     ((∃ err, (reload d reloadedTactics σ).1 = Returns (Some err)) ↔
      short_circuits d reloadedTactics σ = false ∧
      (unrecognized (fetched_name p) ∨
       construction_fails sup (target_strategy p)))) ∧
  (∀ p, fetch = inr p → unrecognized (fetched_name p) →
     (reloadedTactics = true →
      ∃ active, registered = Some active ∧
                recorded_name (currentStrategy active)) →
     short_circuits d reloadedTactics σ = false ∧
     reload d reloadedTactics σ =
     (Returns (Some (Tracef ("unknown strategy " ++ fetched_name p)%string)),
      σ)).
Proof.
  intros Hd Hs Hsup fetch registered. subst fetch registered.
  rewrite (reload_run _ _ _ _ _ _ Hd Hs Hsup).
  split; [| split; [| split]].
  - by intros e ->.
  - by intros p -> -> ->.
  - intros p Hp Hreg.
    rewrite (short_circuits_run _ _ _ _ _ _ _ Hd Hs Hsup Hp), Hp.
    destruct reloadedTactics; simpl.
    + destruct (Hreg eq_refl) as [active ->].
      destruct (String.eqb _ _).
      * split; [by intros [? ?] | by intros [? _]].
      * rewrite (rebuild_error_iff _ _ _ _ _ Hd), unknown_target.
        split; [by intros ? | by intros [_ ?]].
    + rewrite (rebuild_error_iff _ _ _ _ _ Hd), unknown_target.
      split; [by intros ? | by intros [_ ?]].
  - intros p Hp Hun Hreg.
    rewrite (short_circuits_run _ _ _ _ _ _ _ Hd Hs Hsup Hp), Hp.
    destruct reloadedTactics; simpl.
    + destruct (Hreg eq_refl) as (active & -> & Hrec).
      rewrite (recorded_not_unrecognized _ _ Hrec Hun).
      split; [done |].
      rewrite rebuild_unknown by (by apply unknown_target).
      by rewrite (unrecognized_target _ Hun).
    + split; [done |].
      rewrite rebuild_unknown by (by apply unknown_target).
      by rewrite (unrecognized_target _ Hun).
Qed.

(** ** [reload]: the default strategy and the test of line 85 *)

Section ReloadShortCircuit.
Context `{pkg : DiscoveryPackage}.

Lemma target_strategy_default p :
  IsNil p = true ∨ String_ p ServerDiscoveryStrategy = "" →
  target_strategy p = DISCOVERY_STRATEGY_CLASSIC.
Proof.
  unfold target_strategy. intros [-> | Hempty]; simpl; [done |].
  destruct (negb (IsNil p)); [by rewrite Hempty | done].
Qed.

Lemma strategy_call_classic sup :
  strategy_call sup DISCOVERY_STRATEGY_CLASSIC =
  let key := Support.DiscoveryValueHMACKey sup in
  Some (EvNewClassicDiscovery key,
        match NewClassicDiscovery_err key RealClock with
        | Some err => inl err
        | None => inr (ClassicDiscovery key RealClock)
        end).
Proof. done. Qed.

(** The test of line 85 holds: nothing is done. *)
Lemma reload_short_circuit d σ o s sup p a active :
  orchestrators σ !! d = Some o →
  support o = Some s →
  supports σ !! s = Some sup →
  Support.ServerTacticsParametersCache sup NewGeoIPData = inr p →
  Support.discovery sup = Some a →
  orchestrators σ !! a = Some active →
  currentStrategy active = target_strategy p →
  reload d true σ = (Returns None, σ).
Proof.
  intros Hd Hs Hsup Hp Ha Hactive Heq.
  rewrite (reload_run _ _ _ _ _ _ Hd Hs Hsup), Hp, Ha; simpl.
  by rewrite Hactive, Heq, String.eqb_refl.
Qed.

(** The test of line 85 fails: [reload] goes on as with
    [reloadedTactics = false]. *)
Lemma reload_no_short_circuit d σ o s sup p a active :
  orchestrators σ !! d = Some o →
  support o = Some s →
  supports σ !! s = Some sup →
  Support.ServerTacticsParametersCache sup NewGeoIPData = inr p →
  Support.discovery sup = Some a →
  orchestrators σ !! a = Some active →
  currentStrategy active ≠ target_strategy p →
  reload d true σ = rebuild d sup (target_strategy p) σ.
Proof.
  intros Hd Hs Hsup Hp Ha Hactive Hne.
  rewrite (reload_run _ _ _ _ _ _ Hd Hs Hsup), Hp, Ha; simpl.
  rewrite Hactive. by apply String.eqb_neq in Hne as ->.
Qed.

(** What follows line 85 never ends as a silent success: it returns an
    error or leaves events in the trace. *)
Lemma rebuild_not_noop d sup strategy σ o :
  orchestrators σ !! d = Some o →
  rebuild d sup strategy σ ≠ (Returns None, σ).
Proof.
  intros Hd. rewrite rebuild_run.
  destruct (strategy_call sup strategy) as [[ev [e|ds]]|]; [done | | done].
  erewrite install_run by (simpl; exact Hd). simpl.
  destruct (NewDiscovery_err _ _ _); [done |].
  intros [= Heq]. apply (f_equal next_ctx) in Heq. simpl in Heq. lia.
Qed.

End ReloadShortCircuit.

(** C4 (as stated, refuted): on two orchestrators with orchestrator 0
    registered and named "classic", the tactics name no strategy, and
    [reload(true)] of orchestrator 1 returns nil at line 86: nothing is
    constructed and orchestrator 1 stays recorded as "consistent". *)
Lemma reload_default_not_recorded_counterexample :
  let run := @reload no_failure 1 true σ_two in
  (∃ p, Support.ServerTacticsParametersCache (support_with "" (Some 0))
          NewGeoIPData = inr p ∧
        String_ p ServerDiscoveryStrategy = "" ∧
        target_strategy p = "classic") ∧
  run = (Returns None, σ_two) ∧
  new_events σ_two run.2 = [] ∧
  currentStrategy <$> orchestrators run.2 !! 1 = Some "consistent" ∧
  currentStrategy <$> orchestrators run.2 !! 1 ≠ Some "classic".
Proof.
  split; [by eexists |]. by vm_compute.
Qed.

(** C4 (amended): when the tactics yield nil parameters or an empty
    strategy name, the strategy [reload] works with is "classic": the call
    never calls the consistent constructor and leaves the receiver either
    as it was or with a classic component recorded as "classic". When the
    call gets past the test of line 85, its first step is the classic
    constructor, it returns nil when the constructions succeed, and a
    call that returns nil has recorded "classic". When the test of line 85
    ends the call (the orchestrator registered in [d.support.discovery] is
    already named "classic"), nothing is constructed and the receiver is
    unchanged; it is named "classic" when it is the registered one. With
    [reloadedTactics = true] and no registered orchestrator the call
    panics. *)
Theorem reload_default_target_is_classic `{pkg : DiscoveryPackage}
    (d : loc) (reloadedTactics : bool) (σ : State)
    (o : Discovery) (s : loc) (sup : SupportServices)
    (p : ParametersAccessor) :
  orchestrators σ !! d = Some o →
  support o = Some s →
  supports σ !! s = Some sup →
  Support.ServerTacticsParametersCache sup NewGeoIPData = inr p →
  IsNil p = true ∨ String_ p ServerDiscoveryStrategy = "" →
  let key := Support.DiscoveryValueHMACKey sup in
  let classic := ClassicDiscovery key RealClock in
  let servers := Support.GetDiscoveryServers sup in
  let registered := Support.discovery sup ≫= (λ a, orchestrators σ !! a) in
  let run := reload d reloadedTactics σ in
  target_strategy p = DISCOVERY_STRATEGY_CLASSIC ∧
  (orchestrators run.2 !! d = Some o ∨
   orchestrators run.2 !! d
   = Some (installed o sup DISCOVERY_STRATEGY_CLASSIC classic (next_ctx σ))) ∧
  ¬ In EvNewConsistentHashingDiscovery (new_events σ run.2) ∧
  (short_circuits d reloadedTactics σ = false →
   (reloadedTactics = true → is_Some registered) →
   (∃ rest, new_events σ run.2 = EvNewClassicDiscovery key :: rest) ∧
   (NewClassicDiscovery_err key RealClock = None →
    NewDiscovery_err RealClock servers classic = None →
    run.1 = Returns None) ∧
   (run.1 = Returns None →
      orchestrators run.2 !! d
      = Some (installed o sup DISCOVERY_STRATEGY_CLASSIC classic (next_ctx σ))
      ∧ In (EvLogStrategy DISCOVERY_STRATEGY_CLASSIC) (new_events σ run.2))) ∧
  (short_circuits d reloadedTactics σ = true →
   run = (Returns None, σ) ∧
   (∃ a active, Support.discovery sup = Some a ∧
      orchestrators σ !! a = Some active ∧
      currentStrategy active = DISCOVERY_STRATEGY_CLASSIC) ∧
   (Support.discovery sup = Some d →
    currentStrategy o = DISCOVERY_STRATEGY_CLASSIC)) ∧
  (reloadedTactics = true → registered = None → run = (Panics, σ)).
Proof.
  intros Hd Hs Hsup Hp Hdefault key classic servers registered run.
  subst registered run.
  pose proof (target_strategy_default _ Hdefault) as Htarget.
  split; [done |].
  rewrite (short_circuits_run _ _ _ _ _ _ _ Hd Hs Hsup Hp).
  rewrite (reload_run _ _ _ _ _ _ Hd Hs Hsup), Hp, Htarget.
  assert (Hsame : orchestrators σ !! d = Some o ∧
                  ¬ In EvNewConsistentHashingDiscovery (new_events σ σ)).
  { split; [done |].
    rewrite (new_events_app σ σ []) by (by rewrite app_nil_r). by intros []. }
  assert (Hrebuild :
    let run := rebuild d sup DISCOVERY_STRATEGY_CLASSIC σ in
    ((orchestrators run.2 !! d = Some o ∨
      orchestrators run.2 !! d
      = Some (installed o sup DISCOVERY_STRATEGY_CLASSIC classic (next_ctx σ)))
     ∧ ¬ In EvNewConsistentHashingDiscovery (new_events σ run.2)) ∧
    (∃ rest, new_events σ run.2 = EvNewClassicDiscovery key :: rest) ∧
    (NewClassicDiscovery_err key RealClock = None →
     NewDiscovery_err RealClock servers classic = None →
     run.1 = Returns None) ∧
    (run.1 = Returns None →
       orchestrators run.2 !! d
       = Some (installed o sup DISCOVERY_STRATEGY_CLASSIC classic (next_ctx σ))
       ∧ In (EvLogStrategy DISCOVERY_STRATEGY_CLASSIC) (new_events σ run.2))).
  { intros run. subst run.
    rewrite rebuild_run, strategy_call_classic; simpl. fold key.
    destruct (NewClassicDiscovery_err key RealClock) as [e|] eqn:Hk.
    { simpl. rewrite (new_events_app _ _ [EvNewClassicDiscovery key]) by done.
      split; [split; [by left | by intros [[=] | []]] |].
      split; [by exists [] | split; [done | done]]. }
    erewrite install_run by (simpl; exact Hd). simpl.
    fold servers classic.
    destruct (NewDiscovery_err RealClock servers classic) as [e|] eqn:Hn.
    { simpl. erewrite new_events_app
        by (simpl; rewrite <- app_assoc; reflexivity).
      split; [split; [by left | by intros [[=] | [[=] | [[=] | [[=] | []]]]]] |].
      split; [by eexists | split; [done | done]]. }
    simpl. erewrite new_events_app
      by (simpl; rewrite <- app_assoc; reflexivity).
    rewrite lookup_insert_eq.
    split; [split; [by right |] |].
    { simpl. intros [[=] | [[=] | [[=] | [[=] | Hin]]]].
      apply in_app_or in Hin as [Hin | [[=] | [[=] | []]]].
      unfold old_cancel_events in Hin.
      destruct (cancelFunc o); by destruct Hin. }
    split; [by eexists | split; [done |]].
    intros _. split; [done |].
    simpl. do 4 right. apply in_or_app. right. simpl. by right; left. }
  cbv zeta in Hrebuild.
  destruct Hrebuild as ([Hstore Hnocons] & Hrest).
  destruct reloadedTactics; simpl.
  - destruct (Support.discovery sup ≫= _) as [active|] eqn:Hactive.
    2: { simpl. destruct Hsame as [Ho Hno].
         split; [by left |]. split; [done |].
         split; [by intros _ Hreg; destruct (Hreg eq_refl) |].
         split; [done | done]. }
    destruct (Support.discovery sup) as [a|] eqn:Ha; [| done].
    simpl in Hactive.
    destruct (String.eqb_spec (currentStrategy active)
                DISCOVERY_STRATEGY_CLASSIC) as [Heq|Hne].
    + simpl. destruct Hsame as [Ho Hno].
      split; [by left |]. split; [done |]. split; [done |].
      split; [| done]. intros _. split; [done |].
      split; [by exists a, active |].
      intros [= ->]. congruence.
    + split; [done |]. split; [done |].
      split; [intros _ _; exact Hrest | done].
  - split; [done |]. split; [done |].
    split; [intros _ _; exact Hrest | done].
Qed.

(** C5 (as stated, refuted): the receiver, orchestrator 0, is named
    "classic", which is the target, but orchestrator 1 (named
    "consistent") is the registered one; [reload(true)] of orchestrator 0
    does not return at line 86: it builds a new component, calls the
    cancel function that was in place and replaces both. *)
Lemma reload_receiver_same_strategy_counterexample :
  let σ := σ_other_registered in
  let run := @reload no_failure 0 true σ in
  currentStrategy <$> orchestrators σ !! 0 = Some "classic" ∧
  (∃ p, Support.ServerTacticsParametersCache (support_with "" (Some 1))
          NewGeoIPData = inr p ∧ target_strategy p = "classic") ∧
  run.1 = Returns None ∧
  run ≠ (Returns None, σ) ∧
  In (EvCancel 0) (new_events σ run.2) ∧
  cancelFunc <$> orchestrators σ !! 0 = Some (Some (CancelOf 0)) ∧
  cancelFunc <$> orchestrators run.2 !! 0 = Some (Some (CancelOf 2)).
Proof.
  split; [reflexivity |]. split; [by eexists |].
  split; [reflexivity |]. split.
  - intros Heq. apply (f_equal (λ r, next_ctx r.2)) in Heq.
    vm_compute in Heq. discriminate Heq.
  - split; [vm_compute; tauto |]. split; reflexivity.
Qed.

(** C5 (amended): when the target strategy name equals the strategy name
    of the orchestrator registered in [d.support.discovery] (the test of
    line 85; the receiver itself in the wiring of the server),
    [reload(true)] returns success and changes nothing: the store
    (component, cancel function and name of every orchestrator) and the
    trace are the same, so nothing was built and no cancel function was
    called; a second call does the same. *)
Theorem reload_registered_same_strategy_is_noop `{pkg : DiscoveryPackage}
    (d : loc) (σ : State) (o : Discovery) (s : loc)
    (sup : SupportServices) (p : ParametersAccessor)
    (a : loc) (active : Discovery) :
  orchestrators σ !! d = Some o →
  support o = Some s →
  supports σ !! s = Some sup →
  Support.ServerTacticsParametersCache sup NewGeoIPData = inr p →
  Support.discovery sup = Some a →
  orchestrators σ !! a = Some active →
  currentStrategy active = target_strategy p →
  reload d true σ = (Returns None, σ) ∧
  (reload d true;;; reload d true) σ = (Returns None, σ) ∧
  orchestrators (reload d true σ).2 !! d = Some o ∧
  new_events σ (reload d true σ).2 = [] ∧
  (∀ c, ¬ In (EvCancel c) (new_events σ (reload d true σ).2)) ∧
  (a = d → currentStrategy o = target_strategy p).
Proof.
  intros Hd Hs Hsup Hp Hreg Hactive Heq.
  pose proof (reload_short_circuit _ _ _ _ _ _ _ _
                Hd Hs Hsup Hp Hreg Hactive Heq) as Hrun.
  assert (Hnone : new_events σ σ = []).
  { apply new_events_app. by rewrite app_nil_r. }
  unfold bind. rewrite !Hrun; simpl. rewrite Hnone.
  do 4 (split; [done |]). split; [by intros c [] |].
  intros ->. congruence.
Qed.

(** C8: the test of line 85 reads the strategy name of the orchestrator
    registered in the support services. With [reloadedTactics = true] a
    nil registration makes [reload] panic; otherwise the registered
    orchestrator's name alone decides, whatever the receiver's own name
    is; when another orchestrator is registered, the receiver can be left
    alone although its name differs from the target, and be rebuilt
    although its name is the target. *)
Theorem short_circuit_reads_registered `{pkg : DiscoveryPackage}
    (d : loc) (σ : State) (o : Discovery) (s : loc)
    (sup : SupportServices) (p : ParametersAccessor) :
  orchestrators σ !! d = Some o →
  support o = Some s →
  supports σ !! s = Some sup →
  Support.ServerTacticsParametersCache sup NewGeoIPData = inr p →
  let target := target_strategy p in
  (Support.discovery sup = None → reload d true σ = (Panics, σ)) ∧
  (∀ a active,
     Support.discovery sup = Some a →
     orchestrators σ !! a = Some active →
     (currentStrategy active = target →
      reload d true σ = (Returns None, σ)) ∧
     (currentStrategy active ≠ target →
      reload d true σ = rebuild d sup target σ ∧
      reload d true σ ≠ (Returns None, σ))) ∧
  (∀ a active,
     Support.discovery sup = Some a →
     a ≠ d →
     orchestrators σ !! a = Some active →
     (currentStrategy o ≠ target → currentStrategy active = target →
      short_circuits d true σ = true ∧
      orchestrators (reload d true σ).2 !! d = Some o) ∧
     (currentStrategy o = target → currentStrategy active ≠ target →
      short_circuits d true σ = false ∧
      reload d true σ ≠ (Returns None, σ))).
Proof.
  intros Hd Hs Hsup Hp target.
  assert (Hdecide : ∀ a active,
     Support.discovery sup = Some a →
     orchestrators σ !! a = Some active →
     (currentStrategy active = target →
      reload d true σ = (Returns None, σ)) ∧
     (currentStrategy active ≠ target →
      reload d true σ = rebuild d sup target σ ∧
      reload d true σ ≠ (Returns None, σ))).
  { intros a active Ha Hactive. split.
    - by apply reload_short_circuit with (o := o) (s := s) (sup := sup)
                                         (a := a) (active := active).
    - intros Hne.
      rewrite (reload_no_short_circuit _ _ _ _ _ _ _ _
                 Hd Hs Hsup Hp Ha Hactive Hne).
      split; [done | by apply rebuild_not_noop with (o := o)]. }
  split; [| split; [exact Hdecide |]].
  - intros Hnil.
    by rewrite (reload_run _ _ _ _ _ _ Hd Hs Hsup), Hp, Hnil.
  - intros a active Ha Hne Hactive.
    rewrite (short_circuits_run _ _ _ _ _ _ _ Hd Hs Hsup Hp), Ha; simpl.
    rewrite Hactive. destruct (Hdecide a active Ha Hactive) as [Hsame Hdiff].
    split.
    + intros _ Heq. rewrite (Hsame Heq); simpl.
      split; [| done]. rewrite Heq. apply String.eqb_refl.
    + intros _ Hneq. split; [by apply String.eqb_neq | by apply Hdiff].
Qed.

(** ** [reload]: the effect of a call *)

Section ReloadEffect.
Context `{pkg : DiscoveryPackage}.

Lemma rebuild_effect d sup strategy σ o out σ' :
  orchestrators σ !! d = Some o →
  rebuild d sup strategy σ = (out, σ') →
  (∃ err, out = Returns (Some err) ∧ same_store σ σ' ∧
          next_ctx σ ≤ next_ctx σ') ∨
  (∃ ev ds, out = Returns None ∧
            strategy_call sup strategy = Some (ev, inr ds) ∧
            σ' = swapped σ d o sup strategy ev ds).
Proof.
  intros Hd. rewrite rebuild_run.
  destruct (strategy_call sup strategy) as [[ev [e|ds]]|] eqn:Hcall.
  - intros [= <- <-]. left. eexists. repeat split; simpl; lia.
  - erewrite install_run by (simpl; exact Hd). simpl.
    destruct (NewDiscovery_err _ _ _) as [e|].
    + intros [= <- <-]. left. eexists. repeat split; simpl; lia.
    + intros [= <- <-]. right. exists ev, ds. repeat split.
      unfold swapped; simpl. by rewrite <- app_assoc.
  - intros [= <- <-]. left. eexists. repeat split; simpl; lia.
Qed.

(** Every call of [reload] either leaves the store as it is, or succeeds
    after the test of line 85 failed and leaves the swapped state. *)
Lemma reload_effect d reloadedTactics σ out σ' :
  reload d reloadedTactics σ = (out, σ') →
  (same_store σ σ' ∧ next_ctx σ ≤ next_ctx σ' ∧
   (out = Returns None →
    σ' = σ ∧ short_circuits d reloadedTactics σ = true)) ∨
  (out = Returns None ∧ short_circuits d reloadedTactics σ = false ∧
   ∃ o s sup p ev ds,
     orchestrators σ !! d = Some o ∧ support o = Some s ∧
     supports σ !! s = Some sup ∧
     Support.ServerTacticsParametersCache sup NewGeoIPData = inr p ∧
     strategy_call sup (target_strategy p) = Some (ev, inr ds) ∧
     σ' = swapped σ d o sup (target_strategy p) ev ds).
Proof.
  destruct (allocated_or_not d σ) as [(o & s & sup & Hd & Hs & Hsup) | Hno].
  2: { rewrite reload_panics_unallocated by done. intros [= <- <-].
       left. by repeat split. }
  rewrite (reload_run _ _ _ _ _ _ Hd Hs Hsup).
  destruct (Support.ServerTacticsParametersCache sup NewGeoIPData)
    as [e|p] eqn:Hp.
  { intros [= <- <-]. left. by repeat split. }
  rewrite (short_circuits_run _ _ _ _ _ _ _ Hd Hs Hsup Hp).
  assert (Hrebuild :
    rebuild d sup (target_strategy p) σ = (out, σ') →
    (same_store σ σ' ∧ next_ctx σ ≤ next_ctx σ' ∧ out ≠ Returns None) ∨
    (out = Returns None ∧
     ∃ o s sup p ev ds,
       orchestrators σ !! d = Some o ∧ support o = Some s ∧
       supports σ !! s = Some sup ∧
       Support.ServerTacticsParametersCache sup NewGeoIPData = inr p ∧
       strategy_call sup (target_strategy p) = Some (ev, inr ds) ∧
       σ' = swapped σ d o sup (target_strategy p) ev ds)).
  { intros Hrun.
    destruct (rebuild_effect _ _ _ _ _ _ _ Hd Hrun)
      as [(err & -> & Hsame & Hle) | (ev & ds & -> & Hcall & ->)].
    - left. split; [done | split; [done | done]].
    - right. split; [done |]. by exists o, s, sup, p, ev, ds. }
  destruct reloadedTactics; simpl.
  - destruct (Support.discovery sup ≫= _) as [active|].
    2: { intros [= <- <-]. left. by repeat split. }
    destruct (String.eqb _ _).
    + intros [= <- <-]. left. by repeat split.
    + intros Hrun. destruct (Hrebuild Hrun) as [(? & ? & ?) | (? & ?)].
      * left. split; [done | split; [done | by intros ?]].
      * right. by repeat split.
  - intros Hrun. destruct (Hrebuild Hrun) as [(? & ? & ?) | (? & ?)].
    + left. split; [done | split; [done | by intros ?]].
    + right. by repeat split.
Qed.

Lemma strategy_call_Some sup strategy ev res :
  strategy_call sup strategy = Some (ev, res) →
  (strategy = DISCOVERY_STRATEGY_CONSISTENT ∧
   ev = EvNewConsistentHashingDiscovery) ∨
  (strategy = DISCOVERY_STRATEGY_CLASSIC ∧
   ev = EvNewClassicDiscovery (Support.DiscoveryValueHMACKey sup)).
Proof.
  unfold strategy_call.
  destruct (String.eqb_spec strategy DISCOVERY_STRATEGY_CONSISTENT) as [->|Hc].
  { intros [= <- _]. by left. }
  destruct (String.eqb_spec strategy DISCOVERY_STRATEGY_CLASSIC) as [->|Hk].
  { intros [= <- _]. by right. }
  done.
Qed.

Lemma cancel_phases_other d c ph e rest :
  (∀ c', e ≠ EvCancel c') →
  cancel_phases d c ph (e :: rest)
  = cancel_phases d c (phase_after d ph e) rest.
Proof. intros He. cbn [cancel_phases]. by rewrite decide_False. Qed.

Lemma cancel_phases_cancel d c ph c' rest :
  cancel_phases d c ph (EvCancel c' :: rest)
  = (if decide (c' = c) then [ph] else []) ++ cancel_phases d c ph rest.
Proof.
  cbn [cancel_phases phase_after].
  destruct (decide (c' = c)) as [->|Hne].
  - by rewrite decide_True.
  - rewrite decide_False; [done | congruence].
Qed.

(** The cancel calls of a swap: the old cancel function, once, with the
    write lock held. *)
Lemma swapped_cancel_phases σ d o sup strategy ev ds c :
  (ev = EvNewConsistentHashingDiscovery ∨ ∃ key, ev = EvNewClassicDiscovery key) →
  cancel_phases d c NotLocked
    (new_events σ (swapped σ d o sup strategy ev ds))
  = match cancelFunc o with
    | Some old => if decide (cancel_ctx old = c) then [Held] else []
    | None => []
    end.
Proof.
  intros Hev. erewrite new_events_app by reflexivity.
  unfold old_cancel_events. cbn [app].
  rewrite (cancel_phases_other _ _ _ ev)
    by (by destruct Hev as [-> | [key ->]]).
  assert (phase_after d NotLocked ev = NotLocked) as ->
    by (by destruct Hev as [-> | [key ->]]).
  rewrite !cancel_phases_other by done.
  cbn [phase_after]. rewrite decide_True by done.
  destruct (cancelFunc o) as [old|]; cbn [app].
  - rewrite cancel_phases_cancel, !cancel_phases_other by done.
    cbn [cancel_phases]. by rewrite app_nil_r.
  - by rewrite !cancel_phases_other by done.
Qed.

End ReloadEffect.

(** C1 (as stated, refuted): in the reload of a running classic server the
    cancel function of the replaced component is called once, but in the
    phase where the write lock is held, not after its release. *)
Lemma reload_cancel_after_release_counterexample :
  let σ := σ_classic in
  let run := @reload no_failure 0 false σ in
  run.1 = Returns None ∧
  short_circuits 0 false σ = false ∧
  cancelFunc <$> orchestrators σ !! 0 = Some (Some (CancelOf 0)) ∧
  new_events σ run.2
  = [EvNewClassicDiscovery "key"; EvWithCancel 1; EvNewDiscovery 1;
     EvLock 0; EvCancel 0; EvUnlock 0; EvLogStrategy "classic"] ∧
  ¬ cancelled_after_release 0 (CancelOf 0) (new_events σ run.2).
Proof. by vm_compute. Qed.

(** C1 (amended): in every successful reload that the test of line 85
    does not end, the cancel function of the replaced component is called
    exactly once, while the write lock of the orchestrator is held (after
    [Lock], before [Unlock]); no other cancel function is called, and none
    when there was no component before. *)
Theorem reload_cancels_old_inside_lock `{pkg : DiscoveryPackage}
    (d : loc) (reloadedTactics : bool) (σ σ' : State) (o : Discovery) :
  orchestrators σ !! d = Some o →
  reload d reloadedTactics σ = (Returns None, σ') →
  short_circuits d reloadedTactics σ = false →
  (∀ old, cancelFunc o = Some old →
     cancelled_inside_lock d old (new_events σ σ')) ∧
  (∀ c, cancelFunc o ≠ Some (CancelOf c) →
     cancel_phases d c NotLocked (new_events σ σ') = []) ∧
  (∃ before,
     new_events σ σ' =
     before ++ [EvLock d] ++ old_cancel_events o ++ [EvUnlock d] ++
       match orchestrators σ' !! d with
       | Some o' => [EvLogStrategy (currentStrategy o')]
       | None => []
       end ∧
     ∀ e, In e before →
       e ≠ EvLock d ∧ e ≠ EvUnlock d ∧ ∀ c, e ≠ EvCancel c).
Proof.
  intros Hd Hrun Hshort.
  destruct (reload_effect _ _ _ _ _ Hrun)
    as [(_ & _ & Hnoop) | (_ & _ & Hswap)].
  { destruct (Hnoop eq_refl) as [_ Hs]. congruence. }
  destruct Hswap as (o' & s & sup & p & ev & ds & Hd' & _ & _ & _ & Hcall & ->).
  assert (o' = o) as -> by congruence.
  assert (Hev : ev = EvNewConsistentHashingDiscovery ∨
                ∃ key, ev = EvNewClassicDiscovery key).
  { destruct (strategy_call_Some _ _ _ _ Hcall) as [[_ ->] | [_ ->]];
      [by left | right; by eexists]. }
  split; [| split].
  - intros old Hold. unfold cancelled_inside_lock.
    rewrite swapped_cancel_phases, Hold by done.
    by rewrite decide_True.
  - intros c Hc. rewrite swapped_cancel_phases by done.
    destruct (cancelFunc o) as [[c']|]; [| done]. simpl.
    rewrite decide_False; [done | congruence].
  - exists [ev; EvWithCancel (next_ctx σ); EvNewDiscovery (next_ctx σ)].
    split.
    + erewrite new_events_app by reflexivity. simpl.
      by rewrite lookup_insert_eq.
    + intros e [<- | [<- | [<- | []]]]; [| done | done].
      destruct Hev as [-> | [key ->]]; done.
Qed.

(** ** Initialisation is kept *)

Section Initialised.
Context `{pkg : DiscoveryPackage}.

Lemma initialised_same_store σ σ' d :
  same_store σ σ' → next_ctx σ ≤ next_ctx σ' →
  initialised σ d → initialised σ' d.
Proof.
  intros [_ Ho] Hle (o & c & f & Hd & Hc & Hf & ? & ?).
  exists o, c, f. rewrite Ho. repeat split; try done; lia.
Qed.

Lemma initialised_swapped σ d d' o sup strategy ev ds :
  initialised σ d' ∨ d' = d →
  initialised (swapped σ d o sup strategy ev ds) d'.
Proof.
  intros Hinit. unfold initialised, swapped; simpl.
  destruct (decide (d' = d)) as [->|Hne].
  - eexists _, _, _. rewrite lookup_insert_eq.
    repeat split; simpl; lia.
  - destruct Hinit as [(o' & c & f & Hd & Hc & Hf & ? & ?) | ?]; [| done].
    exists o', c, f. rewrite lookup_insert_ne by done.
    repeat split; try done; lia.
Qed.

Lemma reload_keeps_initialised d d' reloadedTactics σ :
  initialised σ d' → initialised (reload d reloadedTactics σ).2 d'.
Proof.
  intros Hinit.
  destruct (reload d reloadedTactics σ) as [out σ'] eqn:Hrun; simpl.
  destruct (reload_effect _ _ _ _ _ Hrun)
    as [(Hsame & Hle & _) | (_ & _ & Hswap)].
  - by apply initialised_same_store with (σ := σ).
  - destruct Hswap as (o & s & sup & p & ev & ds & _ & _ & _ & _ & _ & ->).
    apply initialised_swapped. by left.
Qed.

Lemma newDiscovery_run s σ :
  let d := fresh (dom (orchestrators σ)) in
  let σ0 := mkState (supports σ)
              (<[d := mkDiscovery s "" None None]> (orchestrators σ))
              (next_ctx σ) (trace σ) in
  newDiscovery s σ =
  match reload d false σ0 with
  | (Returns (Some err), σ') => (Returns (None, Some (Trace err)), σ')
  | (Returns None, σ') => (Returns (Some d, None), σ')
  | (Panics, σ') => (Panics, σ')
  end.
Proof.
  intros d σ0. unfold newDiscovery, bind at 1 2, alloc. fold d σ0.
  destruct (reload d false σ0) as [[[err|]|] σ']; done.
Qed.

End Initialised.

Section Steps.

Lemma alloc_keeps_initialised o σ d :
  initialised σ d → initialised (alloc o σ).2 d.
Proof.
  intros (o' & c & f & Hd & Hc & Hf & ? & ?).
  unfold alloc, initialised; simpl.
  exists o', c, f. split; [| done].
  rewrite lookup_insert_ne; [done |].
  intros Heq. apply (is_fresh (dom (orchestrators σ))).
  rewrite Heq. apply elem_of_dom. by eexists.
Qed.

Lemma newDiscovery_keeps_initialised `{pkg : DiscoveryPackage} s σ d :
  initialised σ d → initialised (newDiscovery s σ).2 d.
Proof.
  intros Hinit. rewrite newDiscovery_run.
  pose proof (alloc_keeps_initialised (mkDiscovery s "" None None) _ _ Hinit)
    as Hinit0.
  pose proof (reload_keeps_initialised
                (fresh (dom (orchestrators σ))) d false _ Hinit0) as Hkept.
  unfold alloc in Hkept; simpl in Hkept.
  by destruct (reload _ false _) as [[[err|]|] σ'].
Qed.

Lemma op_step_keeps_initialised σ σ' d :
  op_step σ σ' → initialised σ d → initialised σ' d.
Proof.
  intros Hstep Hinit.
  destruct Hstep as [pkg d0 flag σ | pkg d0 ip σ | pkg s σ | σ sups].
  - by apply reload_keeps_initialised.
  - destruct (DiscoverServers_frame d0 ip σ) as [Hsame Hn].
    apply initialised_same_store with (σ := σ); [done | lia | done].
  - by apply newDiscovery_keeps_initialised.
  - destruct Hinit as (o & c & f & ? & ? & ? & ? & ?). by exists o, c, f.
Qed.

Lemma well_named_swapped `{pkg : DiscoveryPackage} σ d o sup strategy ev ds :
  strategy_call sup strategy = Some (ev, inr ds) →
  well_named σ → well_named (swapped σ d o sup strategy ev ds).
Proof.
  intros Hcall Hwn d' o'. unfold swapped; simpl.
  destruct (decide (d' = d)) as [->|Hne].
  - rewrite lookup_insert_eq. intros [= <-]; simpl.
    destruct (strategy_call_Some _ _ _ _ Hcall) as [[-> _] | [-> _]];
      unfold recorded_name; auto.
  - rewrite lookup_insert_ne by done. apply Hwn.
Qed.

Lemma reload_keeps_well_named `{pkg : DiscoveryPackage} d reloadedTactics σ :
  well_named σ → well_named (reload d reloadedTactics σ).2.
Proof.
  intros Hwn.
  destruct (reload d reloadedTactics σ) as [out σ'] eqn:Hrun; simpl.
  destruct (reload_effect _ _ _ _ _ Hrun)
    as [([_ Ho] & _ & _) | (_ & _ & Hswap)].
  - intros d' o'. rewrite Ho. apply Hwn.
  - destruct Hswap as (o & s & sup & p & ev & ds & _ & _ & _ & _ & Hc & ->).
    by apply well_named_swapped.
Qed.

(** The names found by the test of line 85 are recorded names in every
    state reached from a well-named one. *)
Lemma op_step_keeps_well_named σ σ' :
  op_step σ σ' → well_named σ → well_named σ'.
Proof.
  intros Hstep Hwn.
  destruct Hstep as [pkg d0 flag σ | pkg d0 ip σ | pkg s σ | σ sups].
  - by apply reload_keeps_well_named.
  - intros d' o'.
    destruct (DiscoverServers_frame d0 ip σ) as [[_ Ho] _].
    rewrite Ho. apply Hwn.
  - rewrite newDiscovery_run.
    assert (well_named
              (mkState (supports σ)
                 (<[fresh (dom (orchestrators σ))
                    := mkDiscovery s "" None None]> (orchestrators σ))
                 (next_ctx σ) (trace σ))) as Hwn0.
    { intros d' o'; simpl.
      destruct (decide (d' = fresh (dom (orchestrators σ)))) as [->|Hne].
      - rewrite lookup_insert_eq. intros [= <-]. by left.
      - rewrite lookup_insert_ne by done. apply Hwn. }
    pose proof (reload_keeps_well_named
                  (fresh (dom (orchestrators σ))) false _ Hwn0) as Hkept.
    by destruct (reload _ false _) as [[[err|]|] σ''].
  - exact Hwn.
Qed.

End Steps.

(** C9: after a successful [newDiscovery] the new orchestrator holds a
    component and a cancel function (both non-nil); every later operation
    keeps that; a failed [reload] leaves its fields as they are; a
    successful [reload] that the test of line 85 does not end stores a
    component and a cancel function made from a new context, different
    from the ones before; and [DiscoverServers] then returns (it does not
    dereference a nil component). *)
Theorem initialised_after_newDiscovery_and_kept :
  (∀ (pkg : DiscoveryPackage) s σ r σ',
     newDiscovery s σ = (Returns (r, None), σ') →
     ∃ d, r = Some d ∧ initialised σ' d) ∧
  (∀ σ σ' d, initialised σ d → rtc op_step σ σ' → initialised σ' d) ∧
  (∀ (pkg : DiscoveryPackage) σ d reloadedTactics,
     initialised σ d →
     let run := reload d reloadedTactics σ in
     (∀ err, run.1 = Returns (Some err) →
        orchestrators run.2 !! d = orchestrators σ !! d) ∧
     (run.1 = Returns None →
      short_circuits d reloadedTactics σ = false →
      ∃ o o' c f,
        orchestrators σ !! d = Some o ∧
        orchestrators run.2 !! d = Some o' ∧
        discovery o' = Some c ∧ cancelFunc o' = Some f ∧
        comp_ctx c = next_ctx σ ∧ cancel_ctx f = next_ctx σ ∧
        discovery o' ≠ discovery o ∧ cancelFunc o' ≠ cancelFunc o)) ∧
  (∀ (pkg : DiscoveryPackage) σ d clientIP,
     initialised σ d →
     ∃ entries, (DiscoverServers d clientIP σ).1 = Returns (Slice entries)).
Proof.
  split; [| split; [| split]].
  - intros pkg s σ r σ'. rewrite newDiscovery_run.
    set (d := fresh (dom (orchestrators σ))).
    destruct (reload d false _) as [[[err|]|] σ1] eqn:Hrun; [done | | done].
    intros [= <- <-]. exists d. split; [done |].
    destruct (reload_effect _ _ _ _ _ Hrun)
      as [(_ & _ & Hnoop) | (_ & _ & Hswap)].
    { by destruct (Hnoop eq_refl) as [_ ?]. }
    destruct Hswap as (o & s' & sup & p & ev & ds & _ & _ & _ & _ & _ & ->).
    apply initialised_swapped. by right.
  - intros σ σ' d Hinit Hsteps. induction Hsteps as [|σ1 σ2 σ3 Hstep _ IH].
    + done.
    + apply IH. by apply op_step_keeps_initialised with (σ := σ1).
  - intros pkg σ d reloadedTactics Hinit run. subst run.
    destruct (reload d reloadedTactics σ) as [out σ'] eqn:Hrun; simpl.
    destruct Hinit as (o & c & f & Hd & Hc & Hf & Hclt & Hflt).
    destruct (reload_effect _ _ _ _ _ Hrun)
      as [([_ Ho] & _ & Hnoop) | (-> & _ & Hswap)].
    + split; [intros; by rewrite Ho |].
      intros Hout Hshort. destruct (Hnoop Hout) as [_ ?]. congruence.
    + destruct Hswap as (o0 & s & sup & p & ev & ds & Hd0 & _ & _ & _ & _ & ->).
      assert (o0 = o) as -> by congruence.
      split; [done |].
      intros _ _. eexists o, _, _, _. unfold swapped; simpl.
      rewrite lookup_insert_eq.
      repeat split; try done; simpl.
      * rewrite Hc. intros [= Heq]. rewrite <- Heq in Hclt. simpl in Hclt. lia.
      * rewrite Hf. intros [= Heq]. rewrite <- Heq in Hflt. simpl in Hflt. lia.
  - intros pkg σ d clientIP (o & c & f & Hd & Hc & _).
    rewrite DiscoverServers_run, Hd, Hc. by eexists.
Qed.

(** ** Readers racing one reload *)

Section InterleavingFacts.
Context `{pkg : DiscoveryPackage} `{race : Race}.

Lemma sequential_result_run o ip :
  sequential_result o ip =
  match discovery o with
  | Some c => Returns (Slice (map EncodedServerEntry (SelectServers c ip)))
  | None => Panics
  end.
Proof.
  unfold sequential_result.
  rewrite DiscoverServers_run; simpl. by rewrite lookup_singleton_eq.
Qed.

(** With the writer out of its critical section the orchestrator is the
    one before the reload or the one after it, as a whole. *)
Lemma unlocked_whole cfg :
  writer_inv cfg → w_held (mu cfg) = false →
  obj cfg = race_before ∨ obj cfg = reloaded.
Proof.
  unfold writer_inv.
  destruct (wpc cfg); intros [Ho Hw] Hfree; try congruence; auto.
Qed.

Lemma held_reader_excludes_writer cfg i :
  inv cfg → i ∈ r_held (mu cfg) → w_held (mu cfg) = false.
Proof.
  intros (_ & Hexcl & _) Hi.
  destruct (w_held (mu cfg)); [| done].
  rewrite Hexcl in Hi by done. set_solver.
Qed.

Lemma inv_initial n : inv (initial n).
Proof.
  split; [done | split; [done |]].
  intros i r Hr; simpl in Hr.
  apply lookup_replicate in Hr as [-> _]. simpl. set_solver.
Qed.

(** The three parts of [inv]: the first two by computation. *)
Ltac inv_parts := split; [done | split; [done |]].

Lemma writer_step_inv cfg cfg' :
  writer_step cfg cfg' → inv cfg → inv cfg'.
Proof.
  intros Hstep (Hw & Hexcl & Hr).
  assert (Hnone : w_held (mu cfg) = true →
                  ∀ i r, readers cfg !! i = Some r →
                         ∀ cfg'', mu cfg'' = mu cfg →
                                  reader_inv cfg'' i r).
  { intros Hheld i r Hi cfg'' Hmu. specialize (Hr i r Hi).
    specialize (Hexcl Hheld).
    unfold reader_inv in *. rewrite Hmu, Hexcl in *.
    destruct r; set_solver. }
  destruct Hstep; unfold inv, writer_inv in *; simpl in *;
    destruct Hw as [-> Hheld]; try discriminate.
  - subst held. inv_parts.
    intros i r Hi. specialize (Hr i r Hi).
    unfold reader_inv in *; simpl in *. destruct r; set_solver.
  - inv_parts. intros i r Hi. by apply (Hnone Hheld i r Hi).
  - inv_parts. intros i r Hi. by apply (Hnone Hheld i r Hi).
  - inv_parts. intros i r Hi. by apply (Hnone Hheld i r Hi).
  - inv_parts. intros i r Hi. by apply (Hnone Hheld i r Hi).
  - specialize (Hexcl eq_refl). subst held. inv_parts.
    intros i r Hi. specialize (Hnone eq_refl i r Hi).
    specialize (Hnone (mkConfig reloaded (mkRWMutex true ∅) WUnlock rs log)
                       eq_refl).
    unfold reader_inv in *; simpl in *. destruct r; set_solver.
Qed.

Lemma readers_update (P Q : nat → ReaderPC → Prop) i
    (rs : list ReaderPC) r' :
  (∀ j r, rs !! j = Some r → P j r) →
  Q i r' →
  (∀ j r, j ≠ i → P j r → Q j r) →
  ∀ j r, <[i := r']> rs !! j = Some r → Q j r.
Proof.
  intros HP Hi Hother j r Hj.
  apply list_lookup_insert_Some in Hj as [(<- & <- & _) | (Hne & Hj)].
  - done.
  - apply Hother; [done | by apply HP].
Qed.

Lemma reader_step_inv i o m w rs log r r' m' :
  rs !! i = Some r →
  reader_step i o r m r' m' →
  inv (mkConfig o m w rs log) →
  inv (mkConfig o m' w (<[i := r']> rs) log).
Proof.
  intros Hi Hstep Hinv.
  pose proof Hinv as (Hw & Hexcl & Hr).
  pose proof (Hr i r Hi) as Hself.
  pose proof (held_reader_excludes_writer _ i Hinv) as Hfree.
  unfold inv, writer_inv in *; simpl in *.
  destruct Hstep; simpl in *.
  - inv_parts.
    apply (readers_update _ _ _ _ _ Hr); simpl; [set_solver |].
    intros j rj Hne. unfold reader_inv; simpl. destruct rj; set_solver.
  - destruct Hself as (Hheld & <-).
    inv_parts.
    apply (readers_update _ _ _ _ _ Hr); simpl; [| done].
    inv_parts. by exists c.
  - destruct Hself as (Hheld & <-).
    specialize (Hfree Hheld). subst w0.
    inv_parts.
    apply (readers_update _ _ _ _ _ Hr); simpl.
    + split; [set_solver |].
      assert (sequential_result o (reader_IP i) = Panics) as Hres
        by (by rewrite sequential_result_run, H).
      destruct (unlocked_whole (mkConfig o (mkRWMutex false held) w rs log)
                  Hw eq_refl) as [Ho | Ho]; simpl in Ho; subst o;
        rewrite Hres; auto.
    + intros j rj Hne. unfold reader_inv; simpl. destruct rj; set_solver.
  - destruct Hself as (Hheld & <- & c & Hc & ->).
    inv_parts.
    apply (readers_update _ _ _ _ _ Hr); simpl; [| done].
    inv_parts.
    unfold make0. by rewrite sequential_result_run, Hc, encode_loop.
  - destruct Hself as (Hheld & <- & Hres).
    specialize (Hfree Hheld). subst w0.
    inv_parts.
    apply (readers_update _ _ _ _ _ Hr); simpl.
    + split; [set_solver |].
      destruct (unlocked_whole (mkConfig o (mkRWMutex false held) w rs log)
                  Hw eq_refl) as [Ho | Ho]; simpl in Ho; subst o;
        rewrite Hres; auto.
    + intros j rj Hne. unfold reader_inv; simpl. destruct rj; set_solver.
Qed.

Lemma cstep_inv cfg cfg' : cstep cfg cfg' → inv cfg → inv cfg'.
Proof.
  intros [cfg1 cfg2 Hw | i o m w rs log r r' m' Hi Hr].
  - by apply writer_step_inv.
  - by apply reader_step_inv with (r := r).
Qed.

Lemma reachable_inv n cfg : rtc cstep (initial n) cfg → inv cfg.
Proof.
  intros Hrun.
  eapply (rtc_ind_r (R := cstep) (λ c, inv c));
    [apply inv_initial | | exact Hrun].
  intros cfg1 cfg2 _ Hstep IH. by apply cstep_inv with (cfg := cfg1).
Qed.

Lemma inv_reader_view cfg i :
  inv cfg → reader_view cfg i.
Proof.
  intros Hinv. pose proof Hinv as (Hw & _ & Hr).
  unfold reader_view.
  destruct (readers cfg !! i) as [r|] eqn:Hi; [| done].
  specialize (Hr i r Hi).
  assert (Hwhole : i ∈ r_held (mu cfg) → obj cfg = race_before ∨ obj cfg = reloaded).
  { intros Hheld. apply unlocked_whole; [done |].
    by apply held_reader_excludes_writer with (i := i). }
  destruct r; simpl in Hr; try done.
  - destruct Hr as (Hheld & <-). split; [done | by apply Hwhole].
  - destruct Hr as (Hheld & <- & _). split; [done | by apply Hwhole].
  - destruct Hr as (Hheld & <- & _). split; [done | by apply Hwhole].
  - by destruct Hr as [_ ?].
Qed.

End InterleavingFacts.

(** The orchestrator after the reload is the one the critical section of
    [reload] stores. *)
Lemma reloaded_is_swapped `{pkg : DiscoveryPackage} `{race : Race} d σ :
  orchestrators σ !! d = Some race_before →
  orchestrators
    (swap d built_component built_cancelFunc built_strategy σ).2 !! d
  = Some reloaded.
Proof.
  intros Hd. rewrite (swap_run _ _ _ _ _ _ Hd); simpl.
  by rewrite lookup_insert_eq.
Qed.

(** Inside the critical section the orchestrator does pass through a
    mixed state: the new component under the old strategy name. *)
Lemma mixed_state_reachable `{pkg : DiscoveryPackage} `{race : Race} n :
  rtc cstep (initial n)
      (mkConfig (set_discovery built_component race_before)
         (mkRWMutex true ∅) WStoreCancelFunc (replicate n RRLock)
         ([] ++ match cancelFunc race_before with
                | Some old => [cancel_ctx old]
                | None => []
                end)).
Proof.
  eapply rtc_l; [apply cstep_writer, w_lock; reflexivity |].
  eapply rtc_l; [apply cstep_writer, w_cancel |].
  eapply rtc_l; [apply cstep_writer, w_store_discovery |].
  apply rtc_refl.
Qed.

(** C7: with any number of [DiscoverServers] calls racing one reload, in
    every reachable state each call that holds the read lock sees the
    orchestrator exactly as it was when it took the lock, and that is the
    whole orchestrator of before the reload or the whole one of after it
    (component and strategy name together); each call that has returned
    has returned what [DiscoverServers] returns, run alone, on the
    orchestrator of before or on the one of after. *)
Theorem racing_DiscoverServers_sees_whole_state `{pkg : DiscoveryPackage}
    `{race : Race} (n : nat) (cfg : Config) :
  rtc cstep (initial n) cfg →
  let o0 := race_before in
  let o1 := reloaded in
  o1 = mkDiscovery (support o0) built_strategy (Some built_component)
         (Some built_cancelFunc) ∧
  ∀ i,
    match readers cfg !! i with
    | Some (RSelect seen) | Some (REncode seen _) | Some (RReturn seen _) =>
        obj cfg = seen ∧
        ((discovery seen = discovery o0 ∧
          currentStrategy seen = currentStrategy o0 ∧ seen = o0) ∨
         (discovery seen = Some built_component ∧
          currentStrategy seen = built_strategy ∧ seen = o1))
    | Some (RReturned result) =>
        result = sequential_result o0 (reader_IP i) ∨
        result = sequential_result o1 (reader_IP i)
    | Some RRLock | None => True
    end.
Proof.
  intros Hrun o0 o1. split; [done |]. intros i.
  pose proof (inv_reader_view _ i (reachable_inv _ _ Hrun)) as Hview.
  unfold reader_view in Hview.
  destruct (readers cfg !! i) as [[]|]; try done;
    destruct Hview as [Hobj [-> | ->]]; (split; [done |]); auto.
Qed.

(** ** The theorems at concrete states *)


Lemma reload_error_or_panic_witness :
  unrecognized "bogus" ∧
  @reload no_failure 0 true (σ_tactics "bogus")
  = (Returns (Some (Tracef "unknown strategy bogus")), σ_tactics "bogus") ∧
  @reload no_failure 0 true (σ_unregistered "bogus")
  = (Panics, σ_unregistered "bogus").
Proof.
  assert (unrecognized "bogus") as Hun by (repeat split; discriminate).
  split; [exact Hun |]. split.
  - refine (proj2 (proj2 (proj2 (proj2
              (@reload_error_or_panic no_failure 0 true (σ_tactics "bogus")
                 classic_orchestrator 0 (support_with "bogus" (Some 0))
                 eq_refl eq_refl eq_refl)))
              (Some (λ _, "bogus")) eq_refl Hun _)).
    intros _. exists classic_orchestrator.
    split; [reflexivity |]. right. left. reflexivity.
  - exact (proj1 (proj2
             (@reload_error_or_panic no_failure 0 true
                (σ_unregistered "bogus") classic_orchestrator 0
                (support_with "bogus" None) eq_refl eq_refl eq_refl))
             (Some (λ _, "bogus")) eq_refl eq_refl eq_refl).
Defined.

Lemma reload_default_target_is_classic_witness :
  target_strategy (Some (λ _, "")) = "classic" ∧
  (@reload no_failure 0 false σ_classic).1 = Returns None ∧
  orchestrators (@reload no_failure 0 false σ_classic).2 !! 0
  = Some (mkDiscovery (Some 0) "classic"
            (Some (mkComponent 1 RealClock [server_a; server_b]
                     (ClassicDiscovery "key" RealClock)))
            (Some (CancelOf 1))).
Proof.
  destruct (@reload_default_target_is_classic no_failure 0 false σ_classic
              classic_orchestrator 0 (support_with "" (Some 0))
              (Some (λ _, "")) eq_refl eq_refl eq_refl eq_refl
              (or_intror eq_refl))
    as (Htarget & _ & _ & Hbuild & _).
  destruct (Hbuild eq_refl (λ H, False_ind _ (Bool.diff_false_true H)))
    as (_ & Hok & Hstored).
  split; [exact Htarget |]. split; [exact (Hok eq_refl eq_refl) |].
  exact (proj1 (Hstored (Hok eq_refl eq_refl))).
Defined.

Lemma reload_registered_same_strategy_is_noop_witness :
  @reload no_failure 1 true σ_two = (Returns None, σ_two) ∧
  (@reload no_failure 1 true;;; @reload no_failure 1 true) σ_two
  = (Returns None, σ_two).
Proof.
  destruct (@reload_registered_same_strategy_is_noop no_failure 1 σ_two
              (mkDiscovery (Some 0) "consistent"
                 (Some (mkComponent 1 RealClock [server_a]
                          ConsistentHashingDiscovery))
                 (Some (CancelOf 1)))
              0 (support_with "" (Some 0)) (Some (λ _, ""))
              0 classic_orchestrator
              eq_refl eq_refl eq_refl eq_refl eq_refl eq_refl eq_refl)
    as (Honce & Htwice & _).
  split; [exact Honce | exact Htwice].
Defined.

Lemma short_circuit_reads_registered_witness :
  (currentStrategy <$> orchestrators σ_two !! 1) = Some "consistent" ∧
  target_strategy (Some (λ _, "")) = "classic" ∧
  short_circuits 1 true σ_two = true ∧
  (currentStrategy <$> orchestrators (@reload no_failure 1 true σ_two).2 !! 1)
  = Some "consistent".
Proof.
  split; [reflexivity |]. split; [reflexivity |].
  destruct (@short_circuit_reads_registered no_failure 1 σ_two
              (mkDiscovery (Some 0) "consistent"
                 (Some (mkComponent 1 RealClock [server_a]
                          ConsistentHashingDiscovery))
                 (Some (CancelOf 1)))
              0 (support_with "" (Some 0)) (Some (λ _, ""))
              eq_refl eq_refl eq_refl eq_refl)
    as (_ & _ & Hother).
  destruct (Hother 0 classic_orchestrator eq_refl
              (λ H : 0 = 1, O_S 0 H) eq_refl) as [Hleft _].
  assert ("consistent" ≠ "classic") as Hne by discriminate.
  destruct (Hleft Hne eq_refl) as [Hshort Hkept].
  split; [exact Hshort |].
  exact (f_equal (fmap currentStrategy) Hkept).
Defined.

Lemma reload_cancels_old_inside_lock_witness :
  cancelled_inside_lock 0 (CancelOf 0)
    (new_events σ_classic (@reload no_failure 0 false σ_classic).2).
Proof.
  exact (proj1 (@reload_cancels_old_inside_lock no_failure 0 false σ_classic
                  (@reload no_failure 0 false σ_classic).2
                  classic_orchestrator eq_refl eq_refl eq_refl)
           (CancelOf 0) eq_refl).
Defined.

Lemma initialised_after_newDiscovery_and_kept_witness :
  initialised (@newDiscovery no_failure (Some 0) σ_empty).2 0 ∧
  initialised (@reload component_failure 0 false
                 (@newDiscovery no_failure (Some 0) σ_empty).2).2 0.
Proof.
  destruct initialised_after_newDiscovery_and_kept as (Hnew & Hkept & _).
  destruct (Hnew no_failure (Some 0) σ_empty (Some 0)
              (@newDiscovery no_failure (Some 0) σ_empty).2 eq_refl)
    as (d & Hd & Hinit).
  injection Hd as <-.
  split; [exact Hinit |].
  apply (Hkept _ _ 0 Hinit).
  apply rtc_once. apply (step_reload component_failure).
Defined.

(** Two readers and a reload to the consistent strategy: reader 0 runs
    before the reload, reader 1 after it. *)
Lemma race_run :
  rtc (@cstep no_failure race_to_consistent)
      (@initial race_to_consistent 2) cfg_after_race.
Proof.
  eapply rtc_l.
  { eapply cstep_reader with (i := 0); [reflexivity | apply r_rlock]. }
  eapply rtc_l.
  { eapply cstep_reader with (i := 0);
      [reflexivity | apply r_select; reflexivity]. }
  eapply rtc_l.
  { eapply cstep_reader with (i := 0); [reflexivity | apply r_encode]. }
  eapply rtc_l.
  { eapply cstep_reader with (i := 0); [reflexivity | apply r_return]. }
  eapply rtc_l. { apply cstep_writer, w_lock. reflexivity. }
  eapply rtc_l. { apply cstep_writer, w_cancel. }
  eapply rtc_l. { apply cstep_writer, w_store_discovery. }
  eapply rtc_l. { apply cstep_writer, w_store_cancelFunc. }
  eapply rtc_l. { apply cstep_writer, w_store_strategy. }
  eapply rtc_l. { apply cstep_writer, w_unlock. }
  eapply rtc_l.
  { eapply cstep_reader with (i := 1); [reflexivity | apply r_rlock]. }
  eapply rtc_l.
  { eapply cstep_reader with (i := 1);
      [reflexivity | apply r_select; reflexivity]. }
  eapply rtc_l.
  { eapply cstep_reader with (i := 1); [reflexivity | apply r_encode]. }
  eapply rtc_l.
  { eapply cstep_reader with (i := 1); [reflexivity | apply r_return]. }
  apply rtc_refl.
Qed.

Lemma racing_DiscoverServers_sees_whole_state_witness :
  readers cfg_after_race
  = [RReturned (Returns (Slice ["entry-a"; "entry-b"]));
     RReturned (Returns (Slice ["entry-b"]))] ∧
  (Returns (Slice ["entry-b"])
   = @sequential_result no_failure classic_orchestrator [] ∨
   Returns (Slice ["entry-b"])
   = @sequential_result no_failure (@reloaded race_to_consistent) []).
Proof.
  split; [reflexivity |].
  exact (proj2 (@racing_DiscoverServers_sees_whole_state no_failure
                  race_to_consistent 2 cfg_after_race race_run) 1).
Defined.

(** * Properties beyond the claims *)

(** ** Every way a call of [reload] can end *)

Section ReloadCases.
Context `{pkg : DiscoveryPackage}.

Lemma strategy_call_event sup strategy ev res :
  strategy_call sup strategy = Some (ev, res) → constructor_event ev.
Proof.
  intros Hcall.
  destruct (strategy_call_Some _ _ _ _ Hcall) as [[_ ->] | [_ ->]];
    [by left | right; by eexists].
Qed.

Lemma rebuild_cases d sup strategy σ o out σ' :
  orchestrators σ !! d = Some o →
  rebuild d sup strategy σ = (out, σ') →
  (∃ err, out = Returns (Some err) ∧ σ' = σ) ∨
  (∃ ev err, constructor_event ev ∧ out = Returns (Some err) ∧
             (σ' = with_event σ ev ∨ σ' = abandoned σ ev)) ∨
  (∃ ev ds, constructor_event ev ∧ out = Returns None ∧
            σ' = swapped σ d o sup strategy ev ds).
Proof.
  intros Hd. rewrite rebuild_run.
  destruct (strategy_call sup strategy) as [[ev [e|ds]]|] eqn:Hcall.
  - intros [= <- <-]. right. left. exists ev, (Trace e).
    split; [by eapply strategy_call_event |]. by split; [| left].
  - erewrite install_run by (simpl; exact Hd). simpl.
    destruct (NewDiscovery_err _ _ _) as [e|].
    + intros [= <- <-]. right. left. exists ev, (Trace e).
      split; [by eapply strategy_call_event |]. split; [done |]. right.
      unfold abandoned; simpl. by rewrite <- app_assoc.
    + intros [= <- <-]. right. right. exists ev, ds.
      split; [by eapply strategy_call_event |]. split; [done |].
      unfold swapped; simpl. by rewrite <- app_assoc.
  - intros [= <- <-]. left. by eexists.
Qed.

(** A call of [reload] ends in one of four ways: nothing has happened (a
    panic on the first lines, an error of the fetch, an unknown name, the
    test of line 85); a strategy constructor failed; the component
    constructor failed and the new context was cancelled; the swap. *)
Lemma reload_cases d reloadedTactics σ out σ' :
  reload d reloadedTactics σ = (out, σ') →
  (σ' = σ) ∨
  (∃ ev err, constructor_event ev ∧ out = Returns (Some err) ∧
             (σ' = with_event σ ev ∨ σ' = abandoned σ ev)) ∨
  (∃ o sup strategy ev ds, orchestrators σ !! d = Some o ∧
     constructor_event ev ∧ out = Returns None ∧
     σ' = swapped σ d o sup strategy ev ds).
Proof.
  destruct (allocated_or_not d σ) as [(o & s & sup & Hd & Hs & Hsup) | Hno].
  2: { rewrite reload_panics_unallocated by done. intros [= <- <-]. by left. }
  rewrite (reload_run _ _ _ _ _ _ Hd Hs Hsup).
  assert (Hrebuild : ∀ strategy,
    rebuild d sup strategy σ = (out, σ') →
    (σ' = σ) ∨
    (∃ ev err, constructor_event ev ∧ out = Returns (Some err) ∧
               (σ' = with_event σ ev ∨ σ' = abandoned σ ev)) ∨
    (∃ o sup strategy ev ds, orchestrators σ !! d = Some o ∧
       constructor_event ev ∧ out = Returns None ∧
       σ' = swapped σ d o sup strategy ev ds)).
  { intros strategy Hrun.
    destruct (rebuild_cases _ _ _ _ _ _ _ Hd Hrun)
      as [(err & _ & ->) | [Hfail | (ev & ds & Hev & -> & ->)]].
    - by left.
    - right. by left.
    - right. right. by exists o, sup, strategy, ev, ds. }
  destruct (Support.ServerTacticsParametersCache sup NewGeoIPData) as [e|p].
  { intros [= <- <-]. by left. }
  destruct reloadedTactics; [| by apply Hrebuild].
  destruct (Support.discovery sup ≫= _) as [active|].
  2: { intros [= <- <-]. by left. }
  destruct (String.eqb _ _); [| by apply Hrebuild].
  intros [= <- <-]. by left.
Qed.

Lemma constructor_event_not_cancel ev c :
  constructor_event ev → ev ≠ EvCancel c.
Proof. by intros [-> | [key ->]]. Qed.

Lemma constructor_event_not_with_cancel ev c :
  constructor_event ev → ev ≠ EvWithCancel c.
Proof. by intros [-> | [key ->]]. Qed.

Lemma constructor_event_phase ev d ph :
  constructor_event ev → phase_after d ph ev = ph.
Proof. by intros [-> | [key ->]]. Qed.

End ReloadCases.

(** X1: a call [d.reload] writes to the fields of [d] only. Every other
    orchestrator and the support services are as before, [d] keeps its
    [support] pointer, the trace only grows and no context is given back. *)
Theorem reload_writes_receiver_only `{pkg : DiscoveryPackage}
    (d d' : loc) (reloadedTactics : bool) (σ : State) :
  d' ≠ d →
  let σ' := (reload d reloadedTactics σ).2 in
  orchestrators σ' !! d' = orchestrators σ !! d' ∧
  supports σ' = supports σ ∧
  support <$> orchestrators σ' !! d = support <$> orchestrators σ !! d ∧
  next_ctx σ ≤ next_ctx σ' ∧
  ∃ evs, trace σ' = trace σ ++ evs.
Proof.
  intros Hne σ'. subst σ'.
  destruct (reload d reloadedTactics σ) as [out σ'] eqn:Hrun; simpl.
  destruct (reload_cases _ _ _ _ _ Hrun)
    as [-> | [(ev & err & _ & _ & [-> | ->])
             | (o & sup & strategy & ev & ds & Hd & _ & _ & ->)]]; simpl.
  - repeat split; try done. exists []. by rewrite app_nil_r.
  - repeat split; try done. by eexists.
  - repeat split; try done; [lia | by eexists].
  - rewrite lookup_insert_ne by done. rewrite lookup_insert_eq, Hd.
    repeat split; try done; [lia | by eexists].
Qed.

Lemma reload_writes_receiver_only_witness :
  orchestrators (@reload no_failure 1 false σ_two).2 !! 0
  = Some classic_orchestrator.
Proof.
  exact (proj1 (@reload_writes_receiver_only no_failure 1 0 false σ_two
                  (λ H : 0 = 1, O_S 0 H))).
Defined.

(** X2: no context leaks from [reload]. A call makes at most the context
    numbered by the counter, and when it has made it, either it returns
    nil and the cancel function of that context is the one now in place,
    or it returns an error and has cancelled that context. *)
Theorem reload_leaks_no_context `{pkg : DiscoveryPackage}
    (d : loc) (reloadedTactics : bool) (σ : State) (c : ctx_id) :
  let run := reload d reloadedTactics σ in
  In (EvWithCancel c) (new_events σ run.2) →
  c = next_ctx σ ∧ next_ctx run.2 = S c ∧
  ((run.1 = Returns None ∧
    cancelFunc <$> orchestrators run.2 !! d = Some (Some (CancelOf c))) ∨
   ((∃ err, run.1 = Returns (Some err)) ∧
    In (EvCancel c) (new_events σ run.2) ∧
    orchestrators run.2 = orchestrators σ)).
Proof.
  intros run. subst run.
  destruct (reload d reloadedTactics σ) as [out σ'] eqn:Hrun; simpl.
  destruct (reload_cases _ _ _ _ _ Hrun)
    as [-> | [(ev & err & Hev & -> & [-> | ->])
             | (o & sup & strategy & ev & ds & Hd & Hev & -> & ->)]].
  - rewrite (new_events_app σ σ []) by (by rewrite app_nil_r). by intros [].
  - rewrite (new_events_app _ _ [ev]) by done.
    intros [Heq | []]. by apply constructor_event_not_with_cancel in Heq.
  - erewrite new_events_app by reflexivity.
    intros [Heq | [[= <-] | [[=] | [[=] | []]]]].
    { by apply constructor_event_not_with_cancel in Heq. }
    split; [done |]. split; [done |]. right.
    split; [by eexists |]. split; [| done]. simpl. auto.
  - erewrite new_events_app by reflexivity. simpl.
    intros [Heq | [[= <-] | [[=] | [[=] | Hin]]]].
    + by apply constructor_event_not_with_cancel in Heq.
    + split; [done |]. split; [done |]. left.
      by rewrite lookup_insert_eq.
    + exfalso. apply in_app_or in Hin as [Hin | [[=] | [[=] | []]]].
      unfold old_cancel_events in Hin.
      destruct (cancelFunc o); by destruct Hin.
Qed.

Lemma reload_leaks_no_context_witness :
  In (EvCancel 1)
     (new_events σ_classic (@reload component_failure 0 false σ_classic).2) ∧
  orchestrators (@reload component_failure 0 false σ_classic).2
  = orchestrators σ_classic.
Proof.
  destruct (@reload_leaks_no_context component_failure 0 false σ_classic 1
              (or_intror (or_introl eq_refl)))
    as (_ & _ & [[Hnil _] | (_ & Hcancel & Hstore)]).
  - discriminate Hnil.
  - split; [exact Hcancel | exact Hstore].
Defined.

(** X3: [reload] never ends with the write lock held, and takes no lock
    of another orchestrator. A call that returns an error has not touched
    any lock, and a call that panics has done nothing at all: [reload]
    panics only on its first lines (a nil receiver, support or
    registration), never inside the critical section. *)
Theorem reload_releases_write_lock `{pkg : DiscoveryPackage}
    (d : loc) (reloadedTactics : bool) (σ : State) :
  let run := reload d reloadedTactics σ in
  let evs := new_events σ run.2 in
  (∀ d', final_phase d' evs ≠ Held) ∧
  (∀ d', d' ≠ d → final_phase d' evs = NotLocked) ∧
  (∀ err, run.1 = Returns (Some err) → final_phase d evs = NotLocked) ∧
  (run.1 = Panics → run.2 = σ).
Proof.
  intros run evs. subst run evs.
  destruct (reload d reloadedTactics σ) as [out σ'] eqn:Hrun; simpl.
  destruct (reload_cases _ _ _ _ _ Hrun)
    as [-> | [(ev & err & Hev & -> & [-> | ->])
             | (o & sup & strategy & ev & ds & Hd & Hev & -> & ->)]].
  - rewrite (new_events_app σ σ []) by (by rewrite app_nil_r).
    by repeat split.
  - rewrite (new_events_app _ _ [ev]) by done.
    unfold final_phase; simpl.
    repeat split; try done; intros;
      by rewrite constructor_event_phase.
  - erewrite new_events_app by reflexivity.
    unfold final_phase; simpl.
    repeat split; try done; intros;
      by rewrite constructor_event_phase.
  - erewrite new_events_app by reflexivity.
    unfold final_phase, old_cancel_events.
    assert (∀ d', fold_left (phase_after d')
              ([ev; EvWithCancel (next_ctx σ); EvNewDiscovery (next_ctx σ);
                EvLock d] ++
               match cancelFunc o with
               | Some old => [EvCancel (cancel_ctx old)]
               | None => []
               end ++ [EvUnlock d; EvLogStrategy strategy]) NotLocked
            = if decide (d = d') then Released else NotLocked) as Hphase.
    { intros d'. destruct (cancelFunc o); simpl;
        rewrite constructor_event_phase by done;
        by destruct (decide (d = d')). }
    repeat split; try done.
    + intros d'. rewrite Hphase. by destruct (decide (d = d')).
    + intros d' Hne. rewrite Hphase. by rewrite decide_False.
Qed.

Lemma reload_releases_write_lock_witness :
  final_phase 0
    (new_events σ_classic (@reload component_failure 0 false σ_classic).2)
  = NotLocked.
Proof.
  exact (proj1 (proj2 (proj2
           (@reload_releases_write_lock component_failure 0 false σ_classic)))
           (Trace (ExternalError "no servers")) eq_refl).
Defined.

(** X4: [DiscoverServers] never ends with the read lock held. On an
    orchestrator it takes the read lock once and releases it once, also
    when the component is nil and the call panics (the unlock is
    deferred); the trace gets nothing else. *)
Theorem DiscoverServers_releases_read_lock `{pkg : DiscoveryPackage}
    (d : loc) (clientIP : IP) (σ : State) (self : Discovery) :
  orchestrators σ !! d = Some self →
  let run := DiscoverServers d clientIP σ in
  new_events σ run.2 = [EvRLock d; EvRUnlock d] ∧
  read_depth d 0 (new_events σ run.2) = Some 0 ∧
  (discovery self = None → run.1 = Panics).
Proof.
  intros Hd run. subst run. rewrite DiscoverServers_run, Hd. simpl.
  erewrite new_events_app by reflexivity. simpl.
  rewrite !decide_True by done.
  split; [done |]. split; [done |]. by intros ->.
Qed.

Lemma DiscoverServers_releases_read_lock_witness :
  (@DiscoverServers no_failure 0 []
     (mkState ∅ {[ 0 := mkDiscovery None "" None None ]} 0 [])).1 = Panics.
Proof.
  exact (proj2 (proj2
           (@DiscoverServers_releases_read_lock no_failure 0 []
              (mkState ∅ {[ 0 := mkDiscovery None "" None None ]} 0 [])
              (mkDiscovery None "" None None) eq_refl)) eq_refl).
Defined.

(** ** [newDiscovery] and sequences of calls *)

Section NewDiscoveryFacts.
Context `{pkg : DiscoveryPackage}.

Lemma rebuild_returns d sup strategy σ o :
  orchestrators σ !! d = Some o →
  ∃ res, (rebuild d sup strategy σ).1 = Returns res.
Proof.
  intros Hd.
  destruct (rebuild d sup strategy σ) as [out σ'] eqn:Hrun.
  destruct (rebuild_effect _ _ _ _ _ _ _ Hd Hrun)
    as [(err & -> & _) | (ev & ds & -> & _)]; by eexists.
Qed.

Lemma reload_error_traced d reloadedTactics σ err σ' :
  reload d reloadedTactics σ = (Returns (Some err), σ') →
  (∃ e, err = Trace e) ∨ (∃ msg, err = Tracef msg).
Proof.
  destruct (allocated_or_not d σ) as [(o & s & sup & Hd & Hs & Hsup) | Hno].
  2: { by rewrite reload_panics_unallocated. }
  rewrite (reload_run _ _ _ _ _ _ Hd Hs Hsup).
  assert (Hrebuild : ∀ strategy,
    rebuild d sup strategy σ = (Returns (Some err), σ') →
    (∃ e, err = Trace e) ∨ (∃ msg, err = Tracef msg)).
  { intros strategy. rewrite rebuild_run.
    destruct (strategy_call sup strategy) as [[ev [e|ds]]|].
    - intros [= <- _]. left. by eexists.
    - erewrite install_run by (simpl; exact Hd). simpl.
      destruct (NewDiscovery_err _ _ _); [| done].
      intros [= <- _]. left. by eexists.
    - intros [= <- _]. right. by eexists. }
  destruct (Support.ServerTacticsParametersCache sup NewGeoIPData) as [e|p].
  { intros [= <- _]. left. by eexists. }
  destruct reloadedTactics; [| by apply Hrebuild].
  destruct (Support.discovery sup ≫= _) as [active|]; [| done].
  destruct (String.eqb _ _); [done | by apply Hrebuild].
Qed.

End NewDiscoveryFacts.

(** X5: [newDiscovery] needs no registered orchestrator. With support
    services in place it never panics, whatever their [discovery] field
    is (nil included); it returns either a pointer and no error, or no
    pointer and a traced error, never both and never neither; the pointer
    is a new orchestrator with a component and a cancel function; and no
    orchestrator that existed before is modified. *)
Theorem newDiscovery_needs_no_registration `{pkg : DiscoveryPackage}
    (s : loc) (sup : SupportServices) (σ : State) :
  supports σ !! s = Some sup →
  let run := newDiscovery (Some s) σ in
  ((∃ d, run.1 = Returns (Some d, None) ∧
         orchestrators σ !! d = None ∧ initialised run.2 d) ∨
   (∃ err, run.1 = Returns (None, Some (Trace err)) ∧
           ((∃ e, err = Trace e) ∨ (∃ msg, err = Tracef msg)))) ∧
  (∀ d o, orchestrators σ !! d = Some o →
          orchestrators run.2 !! d = Some o) ∧
  supports run.2 = supports σ.
Proof.
  intros Hsup run. subst run. rewrite newDiscovery_run.
  set (d := fresh (dom (orchestrators σ))).
  set (σ0 := mkState (supports σ)
               (<[d := mkDiscovery (Some s) "" None None]> (orchestrators σ))
               (next_ctx σ) (trace σ)).
  assert (Hfresh : orchestrators σ !! d = None).
  { apply not_elem_of_dom. apply is_fresh. }
  assert (Hd0 : orchestrators σ0 !! d = Some (mkDiscovery (Some s) "" None None))
    by apply lookup_insert_eq.
  assert (Hkept : ∀ d' o, orchestrators σ !! d' = Some o →
                          orchestrators σ0 !! d' = Some o).
  { intros d' o Hd'. simpl. rewrite lookup_insert_ne; [done |]. congruence. }
  destruct (reload d false σ0) as [out σ'] eqn:Hrun.
  assert (Hframe : ∀ d' o, orchestrators σ !! d' = Some o →
                           orchestrators σ' !! d' = Some o).
  { intros d' o Hd'.
    assert (d' ≠ d) as Hne by congruence.
    pose proof (reload_effect _ _ _ _ _ Hrun)
      as [([_ Ho] & _) | (_ & _ & Hswap)].
    - rewrite Ho. by apply Hkept.
    - destruct Hswap as (o0 & ? & ? & ? & ? & ? & _ & _ & _ & _ & _ & ->).
      simpl. rewrite lookup_insert_ne by done. by apply Hkept. }
  assert (Hsups : supports σ' = supports σ).
  { pose proof (reload_effect _ _ _ _ _ Hrun)
      as [([Hs _] & _) | (_ & _ & Hswap)]; [done |].
    by destruct Hswap as (? & ? & ? & ? & ? & ? & _ & _ & _ & _ & _ & ->). }
  pose proof Hrun as Hrun'.
  rewrite (reload_run _ _ _ _ _ _ Hd0 eq_refl Hsup) in Hrun'.
  assert (Hout : ∃ res, out = Returns res).
  { destruct (Support.ServerTacticsParametersCache sup NewGeoIPData) as [e|p].
    - injection Hrun' as <- _. by eexists.
    - destruct (rebuild_returns d sup (target_strategy p) σ0 _ Hd0)
        as [res Hres].
      rewrite Hrun' in Hres. by eexists. }
  destruct Hout as [[err|] ->]; simpl.
  - split; [| done]. right. exists err. split; [done |].
    by apply (reload_error_traced _ _ _ _ _ Hrun).
  - split; [| done]. left. exists d. split; [done |]. split; [done |].
    destruct (reload_effect _ _ _ _ _ Hrun)
      as [(_ & _ & Hnoop) | (_ & _ & Hswap)].
    { by destruct (Hnoop eq_refl) as [_ ?]. }
    destruct Hswap as (? & ? & ? & ? & ? & ? & _ & _ & _ & _ & _ & ->).
    apply initialised_swapped. by right.
Qed.

Lemma newDiscovery_needs_no_registration_witness :
  Support.discovery (support_with "" None) = None ∧
  (@newDiscovery no_failure (Some 0) σ_empty).1 = Returns (Some 0, None) ∧
  supports (@newDiscovery no_failure (Some 0) σ_empty).2 = supports σ_empty.
Proof.
  split; [reflexivity |]. split; [reflexivity |].
  exact (proj2 (proj2 (@newDiscovery_needs_no_registration no_failure 0
                         (support_with "" None) σ_empty eq_refl))).
Defined.

(** X6: after a successful [reload] of the registered orchestrator, a
    [reload(true)] under the same tactics does nothing: the two calls in
    sequence end exactly as the first call alone. *)
Theorem reload_then_refresh_is_reload `{pkg : DiscoveryPackage}
    (d : loc) (reloadedTactics : bool) (σ : State) (o : Discovery)
    (s : loc) (sup : SupportServices) :
  orchestrators σ !! d = Some o →
  support o = Some s →
  supports σ !! s = Some sup →
  Support.discovery sup = Some d →
  (reload d reloadedTactics σ).1 = Returns None →
  (reload d reloadedTactics;;; reload d true) σ = reload d reloadedTactics σ.
Proof.
  intros Hd Hs Hsup Hreg Hok. unfold bind.
  destruct (reload d reloadedTactics σ) as [out σ'] eqn:Hrun.
  simpl in Hok. subst out.
  destruct (reload_effect _ _ _ _ _ Hrun)
    as [(_ & _ & Hnoop) | (_ & _ & Hswap)].
  - destruct (Hnoop eq_refl) as [-> Hshort].
    destruct reloadedTactics; [done | by unfold short_circuits in Hshort].
  - destruct Hswap as (o' & s' & sup' & p & ev & ds & Hd' & Hs' & Hsup' & Hp
                       & _ & ->).
    assert (o' = o) as -> by congruence.
    assert (s' = s) as -> by congruence.
    assert (sup' = sup) as -> by congruence.
    apply reload_short_circuit
      with (o := installed o sup (target_strategy p) ds (next_ctx σ))
           (s := s) (sup := sup) (p := p) (a := d)
           (active := installed o sup (target_strategy p) ds (next_ctx σ));
      try done; simpl; by rewrite ?lookup_insert_eq.
Qed.

Lemma reload_then_refresh_is_reload_witness :
  (@reload no_failure 0 false;;; @reload no_failure 0 true)
    (σ_tactics "consistent")
  = @reload no_failure 0 false (σ_tactics "consistent").
Proof.
  exact (@reload_then_refresh_is_reload no_failure 0 false
           (σ_tactics "consistent") classic_orchestrator 0
           (support_with "consistent" (Some 0))
           eq_refl eq_refl eq_refl eq_refl eq_refl).
Defined.

(** ** Invariants of the store *)

Section StoreInvariants.

Lemma strategy_call_names `{pkg : DiscoveryPackage} sup strategy ev ds :
  strategy_call sup strategy = Some (ev, inr ds) → names_strategy strategy ds.
Proof.
  unfold strategy_call.
  destruct (String.eqb_spec strategy DISCOVERY_STRATEGY_CONSISTENT) as [->|Hc].
  { destruct NewConsistentHashingDiscovery_err; [done |]. by intros [= _ <-]. }
  destruct (String.eqb_spec strategy DISCOVERY_STRATEGY_CLASSIC) as [->|Hk];
    [| done].
  destruct (NewClassicDiscovery_err _ _); [done |]. by intros [= _ <-].
Qed.

Lemma coherent_store_insert σ d o sups n evs :
  coherent_store σ → coherent o →
  coherent_store (mkState sups (<[d := o]> (orchestrators σ)) n evs).
Proof.
  intros Hst Ho d' o'; simpl.
  destruct (decide (d' = d)) as [->|Hne].
  - rewrite lookup_insert_eq. by intros [= <-].
  - rewrite lookup_insert_ne by done. apply Hst.
Qed.

Lemma reload_keeps_coherent `{pkg : DiscoveryPackage} d reloadedTactics σ :
  coherent_store σ → coherent_store (reload d reloadedTactics σ).2.
Proof.
  intros Hst.
  destruct (reload d reloadedTactics σ) as [out σ'] eqn:Hrun; simpl.
  destruct (reload_effect _ _ _ _ _ Hrun)
    as [([_ Ho] & _ & _) | (_ & _ & Hswap)].
  - intros d' o'. rewrite Ho. apply Hst.
  - destruct Hswap as (o & s & sup & p & ev & ds & _ & _ & _ & _ & Hc & ->).
    apply coherent_store_insert; [done |].
    split; [done |]. by apply strategy_call_names in Hc.
Qed.

Lemma op_step_keeps_coherent σ σ' :
  op_step σ σ' → coherent_store σ → coherent_store σ'.
Proof.
  intros Hstep Hst.
  destruct Hstep as [pkg d0 flag σ | pkg d0 ip σ | pkg s σ | σ sups].
  - by apply reload_keeps_coherent.
  - intros d' o'.
    destruct (DiscoverServers_frame d0 ip σ) as [[_ Ho] _].
    rewrite Ho. apply Hst.
  - rewrite newDiscovery_run.
    assert (coherent_store
              (mkState (supports σ)
                 (<[fresh (dom (orchestrators σ))
                    := mkDiscovery s "" None None]> (orchestrators σ))
                 (next_ctx σ) (trace σ))) as Hst0
      by (by apply coherent_store_insert).
    pose proof (reload_keeps_coherent
                  (fresh (dom (orchestrators σ))) false _ Hst0) as Hkept.
    by destruct (reload _ false _) as [[[err|]|] σ''].
  - exact Hst.
Qed.

Lemma live_store_trace σ evs :
  live_store σ →
  (∀ c, ¬ In (EvCancel c) evs) →
  live_store (mkState (supports σ) (orchestrators σ) (next_ctx σ)
                (trace σ ++ evs)).
Proof.
  intros (Hbound & Hlive & Huniq) Hevs.
  split; [| split]; simpl.
  - intros c Hin. apply in_app_or in Hin as [Hin | Hin]; [auto |].
    by apply Hevs in Hin.
  - intros d o f Hd Hf. destruct (Hlive d o f Hd Hf) as [Hlt Hnot].
    split; [done |]. intros Hin.
    apply in_app_or in Hin as [Hin | Hin]; [done | by apply Hevs in Hin].
  - exact Huniq.
Qed.

Lemma live_store_abandoned σ ev :
  constructor_event ev → live_store σ → live_store (abandoned σ ev).
Proof.
  intros Hev (Hbound & Hlive & Huniq).
  assert (Hin : ∀ x, In (EvCancel x) (trace (abandoned σ ev)) →
                     In (EvCancel x) (trace σ) ∨ x = next_ctx σ).
  { intros x Hx. unfold abandoned in Hx; simpl in Hx.
    apply in_app_or in Hx as [Hx | [Hx | [[=] | [[=] | [[= <-] | []]]]]];
      [by left | | by right].
    by apply constructor_event_not_cancel in Hx. }
  split; [| split].
  - intros c Hc. destruct (Hin c Hc) as [Hold | ->]; simpl; [| lia].
    specialize (Hbound c Hold). lia.
  - intros d o f Hd Hf. destruct (Hlive d o f Hd Hf) as [Hlt Hnot].
    split; [simpl; lia |]. intros Hc.
    destruct (Hin _ Hc) as [Hold | Heq]; [done | lia].
  - exact Huniq.
Qed.

Lemma live_store_swapped σ d o sup strategy ev ds :
  constructor_event ev →
  orchestrators σ !! d = Some o →
  live_store σ → live_store (swapped σ d o sup strategy ev ds).
Proof.
  intros Hev Hd (Hbound & Hlive & Huniq).
  assert (Hin : ∀ x, In (EvCancel x) (trace (swapped σ d o sup strategy ev ds))
                     → In (EvCancel x) (trace σ) ∨
                       cancelFunc o = Some (CancelOf x)).
  { intros x Hx. unfold swapped in Hx; simpl in Hx.
    apply in_app_or in Hx as [Hx | [Hx | [[=] | [[=] | [[=] | Hx]]]]];
      [by left | |].
    { by apply constructor_event_not_cancel in Hx. }
    apply in_app_or in Hx as [Hx | [[=] | [[=] | []]]].
    unfold old_cancel_events in Hx.
    destruct (cancelFunc o) as [[c']|]; [| done].
    destruct Hx as [[= <-] | []]. by right. }
  assert (Hold : ∀ x, cancelFunc o = Some (CancelOf x) →
                      x < next_ctx σ ∧ ¬ In (EvCancel x) (trace σ)).
  { intros x Hx. apply (Hlive d o (CancelOf x) Hd Hx). }
  assert (Hnew : ¬ In (EvCancel (next_ctx σ))
                     (trace (swapped σ d o sup strategy ev ds))).
  { intros Hc. destruct (Hin _ Hc) as [Hc' | Hc'].
    - specialize (Hbound _ Hc'). lia.
    - destruct (Hold _ Hc'). lia. }
  split; [| split].
  - intros c Hc. simpl. destruct (Hin c Hc) as [Hc' | Hc'].
    + specialize (Hbound c Hc'). lia.
    + destruct (Hold c Hc'). lia.
  - intros d0 o0 f. cbn [orchestrators swapped].
    destruct (decide (d0 = d)) as [->|Hne].
    + rewrite lookup_insert_eq. intros [= <-] [= <-]. simpl. split; [lia | done].
    + rewrite lookup_insert_ne by done. intros Hd0 Hf.
      destruct (Hlive d0 o0 f Hd0 Hf) as [Hlt Hnot].
      split; [simpl; lia |]. intros Hc.
      destruct (Hin _ Hc) as [Hc' | Hc']; [done |].
      destruct f as [x]; simpl in *.
      by apply (Huniq d d0 o o0 (CancelOf x)).
  - intros d1 d2 o1 o2 f Hne. cbn [orchestrators swapped].
    destruct (decide (d1 = d)) as [->|Hne1].
    + rewrite lookup_insert_eq, lookup_insert_ne by done.
      intros [= <-] Hd2 [= <-] Hf2.
      destruct (Hlive d2 o2 _ Hd2 Hf2) as [Hlt _]. simpl in Hlt. lia.
    + rewrite lookup_insert_ne by done.
      destruct (decide (d2 = d)) as [->|Hne2].
      * rewrite lookup_insert_eq. intros Hd1 [= <-] Hf1 [= <-].
        destruct (Hlive d1 o1 _ Hd1 Hf1) as [Hlt _]. simpl in Hlt. lia.
      * rewrite lookup_insert_ne by done. by apply Huniq.
Qed.

Lemma reload_keeps_live `{pkg : DiscoveryPackage} d reloadedTactics σ :
  live_store σ → live_store (reload d reloadedTactics σ).2.
Proof.
  intros Hlive.
  destruct (reload d reloadedTactics σ) as [out σ'] eqn:Hrun; simpl.
  destruct (reload_cases _ _ _ _ _ Hrun)
    as [-> | [(ev & err & Hev & _ & [-> | ->])
             | (o & sup & strategy & ev & ds & Hd & Hev & _ & ->)]].
  - done.
  - apply (live_store_trace σ [ev]); [done |].
    intros c [Heq | []]. by apply constructor_event_not_cancel in Heq.
  - by apply live_store_abandoned.
  - by apply live_store_swapped.
Qed.

Lemma live_store_alloc σ o :
  cancelFunc o = None → live_store σ → live_store (alloc o σ).2.
Proof.
  intros Hnone (Hbound & Hlive & Huniq). unfold alloc.
  set (d := fresh (dom (orchestrators σ))).
  split; [done | split]; cbn [orchestrators next_ctx trace snd].
  - intros d0 o0 f. destruct (decide (d0 = d)) as [->|Hne].
    + rewrite lookup_insert_eq. intros [= <-]. by rewrite Hnone.
    + rewrite lookup_insert_ne by done. apply Hlive.
  - intros d1 d2 o1 o2 f Hne.
    destruct (decide (d1 = d)) as [->|Hne1].
    { rewrite lookup_insert_eq. intros [= <-] _. by rewrite Hnone. }
    rewrite lookup_insert_ne by done.
    destruct (decide (d2 = d)) as [->|Hne2].
    { rewrite lookup_insert_eq. intros _ [= <-] _. by rewrite Hnone. }
    rewrite lookup_insert_ne by done. by apply Huniq.
Qed.

Lemma op_step_keeps_live σ σ' :
  op_step σ σ' → live_store σ → live_store σ'.
Proof.
  intros Hstep Hlive.
  destruct Hstep as [pkg d0 flag σ | pkg d0 ip σ | pkg s σ | σ sups].
  - by apply reload_keeps_live.
  - rewrite DiscoverServers_run.
    destruct (orchestrators σ !! d0); [| done]. simpl.
    apply (live_store_trace σ [EvRLock d0; EvRUnlock d0]); [done |].
    by intros c [[=] | [[=] | []]].
  - rewrite newDiscovery_run.
    pose proof (live_store_alloc σ (mkDiscovery s "" None None) eq_refl Hlive)
      as Hlive0.
    pose proof (reload_keeps_live
                  (fresh (dom (orchestrators σ))) false _ Hlive0) as Hkept.
    unfold alloc in Hkept; simpl in Hkept.
    by destruct (reload _ false _) as [[[err|]|] σ''].
  - exact Hlive.
Qed.

End StoreInvariants.

(** X7: the three fields [reload] assigns always agree. In every state
    reached by calls of the three functions and changes of the support
    services, an orchestrator is either as [&Discovery{}] left it (no
    component, no cancel function, empty name), or holds a component, the
    cancel function of that component's context, and the strategy name
    ("classic" or "consistent") of that component's strategy. *)
Theorem fields_stay_coherent (σ σ' : State) :
  coherent_store σ → rtc op_step σ σ' →
  ∀ d o, orchestrators σ' !! d = Some o →
    match discovery o, cancelFunc o with
    | Some c, Some f =>
        f = CancelOf (comp_ctx c) ∧
        ((currentStrategy o = DISCOVERY_STRATEGY_CLASSIC ∧
          ∃ key clock, comp_strategy c = ClassicDiscovery key clock) ∨
         (currentStrategy o = DISCOVERY_STRATEGY_CONSISTENT ∧
          comp_strategy c = ConsistentHashingDiscovery))
    | None, None => currentStrategy o = ""
    | _, _ => False
    end.
Proof.
  intros Hst Hsteps.
  assert (coherent_store σ') as Hst'.
  { induction Hsteps as [|σ1 σ2 σ3 Hstep _ IH]; [done |].
    apply IH. by apply op_step_keeps_coherent with (σ := σ1). }
  intros d o Hd. specialize (Hst' d o Hd). unfold coherent in Hst'.
  destruct (discovery o) as [c|], (cancelFunc o) as [[x]|]; try done.
  destruct Hst' as [Hctx Hname]. simpl in Hctx. subst x.
  split; [done |]. unfold names_strategy in Hname.
  destruct (comp_strategy c) as [key clock|];
    [left; split; [done | by eexists _, _] | by right].
Qed.

Lemma σ_tactics_coherent name : coherent_store (σ_tactics name).
Proof.
  intros d o. unfold σ_tactics; simpl.
  destruct (decide (d = 0)) as [->|Hne].
  - rewrite lookup_singleton_eq. intros [= <-]. by split.
  - by rewrite lookup_singleton_ne.
Qed.

Lemma σ_tactics_live name : live_store (σ_tactics name).
Proof.
  split; [by intros c [] | split].
  - intros d o f. unfold σ_tactics; simpl.
    destruct (decide (d = 0)) as [->|Hne].
    + rewrite lookup_singleton_eq. intros [= <-] [= <-]. simpl.
      split; [lia | by intros []].
    + by rewrite lookup_singleton_ne.
  - intros d1 d2 o1 o2 f Hne. unfold σ_tactics; simpl.
    destruct (decide (d1 = 0)) as [->|Hne1];
      [| by rewrite lookup_singleton_ne].
    by rewrite (lookup_singleton_ne 0 d2).
Qed.

Lemma fields_stay_coherent_witness :
  ∃ o c, orchestrators
           (@reload no_failure 0 false (σ_tactics "consistent")).2 !! 0
         = Some o ∧
         discovery o = Some c ∧
         currentStrategy o = "consistent" ∧
         comp_strategy c = ConsistentHashingDiscovery.
Proof.
  pose proof (fields_stay_coherent (σ_tactics "consistent")
                (@reload no_failure 0 false (σ_tactics "consistent")).2
                (σ_tactics_coherent "consistent")
                (rtc_once _ _ (step_reload no_failure 0 false _))
                0 _ eq_refl) as Hfields.
  simpl in Hfields. destruct Hfields as [_ [[Hclassic _] | [Hname Hds]]].
  - discriminate Hclassic.
  - eexists _, _. split; [reflexivity |]. split; [reflexivity |].
    split; [exact Hname | exact Hds].
Defined.

(** X8: a component in place is never stopped. From a store where no
    cancel function in place has been called, in every state reached by
    calls of the three functions and changes of the support services, the
    context of the component of every orchestrator has not been cancelled:
    [reload] cancels only the context of the component it replaces and
    the context of a component it failed to build. *)
Theorem component_in_place_not_cancelled (σ σ' : State) :
  live_store σ → coherent_store σ → rtc op_step σ σ' →
  ∀ d o c, orchestrators σ' !! d = Some o → discovery o = Some c →
    ¬ In (EvCancel (comp_ctx c)) (trace σ').
Proof.
  intros Hlive Hst Hsteps.
  assert (live_store σ' ∧ coherent_store σ') as [Hlive' Hst'].
  { induction Hsteps as [|σ1 σ2 σ3 Hstep _ IH]; [done |].
    apply IH.
    - by apply op_step_keeps_live with (σ := σ1).
    - by apply op_step_keeps_coherent with (σ := σ1). }
  intros d o c Hd Hc. specialize (Hst' d o Hd). unfold coherent in Hst'.
  rewrite Hc in Hst'. destruct (cancelFunc o) as [f|] eqn:Hf; [| done].
  destruct Hst' as [<- _].
  destruct Hlive' as (_ & Hl & _). by destruct (Hl d o f Hd Hf).
Qed.

Lemma component_in_place_not_cancelled_witness :
  In (EvCancel 0) (trace (@reload no_failure 0 false σ_classic).2) ∧
  ¬ In (EvCancel 1) (trace (@reload no_failure 0 false σ_classic).2).
Proof.
  split; [simpl; do 4 right; left; reflexivity |].
  exact (component_in_place_not_cancelled σ_classic
           (@reload no_failure 0 false σ_classic).2
           (σ_tactics_live "") (σ_tactics_coherent "")
           (rtc_once _ _ (step_reload no_failure 0 false _))
           0 _ (mkComponent 1 RealClock [server_a; server_b]
                  (ClassicDiscovery "key" RealClock))
           eq_refl eq_refl).
Defined.

(** ** The lock protocol of the race *)

Section RaceProtocol.
Context `{pkg : DiscoveryPackage} `{race : Race}.

Lemma insert_keeps_is_Some (rs : list ReaderPC) i j r' :
  is_Some (rs !! j) → is_Some (<[i := r']> rs !! j).
Proof.
  rewrite !lookup_lt_is_Some. by rewrite length_insert.
Qed.

Lemma inv_log_initial n : inv_log (initial n).
Proof. split; [intros i Hi; simpl in Hi; set_solver | done]. Qed.

Lemma writer_step_inv_log cfg cfg' :
  writer_step cfg cfg' → inv cfg → inv_log cfg → inv_log cfg'.
Proof.
  intros Hstep (Hw & _ & _) (Hheld & Hlog).
  destruct Hstep; unfold inv_log, writer_inv in *; simpl in *;
    try (split; [done | done]).
  destruct Hw as [-> _]. split; [done |]. by rewrite Hlog.
Qed.

Lemma reader_step_inv_log i o m w rs log r r' m' :
  rs !! i = Some r →
  reader_step i o r m r' m' →
  inv_log (mkConfig o m w rs log) →
  inv_log (mkConfig o m' w (<[i := r']> rs) log).
Proof.
  intros Hi Hstep (Hheld & Hlog). split; [| done]. simpl in *.
  assert (Hself : is_Some (<[i := r']> rs !! i)).
  { apply lookup_lt_is_Some. rewrite length_insert.
    apply lookup_lt_is_Some. by eexists. }
  destruct Hstep; simpl in *; intros j Hj;
    try (apply insert_keeps_is_Some, Hheld; set_solver).
  destruct (decide (j = i)) as [->|Hne]; [done |].
  apply insert_keeps_is_Some, Hheld. set_solver.
Qed.

Lemma reachable_inv_log n cfg : rtc cstep (initial n) cfg → inv_log cfg.
Proof.
  intros Hrun.
  cut (inv cfg ∧ inv_log cfg); [by intros [_ ?] |].
  eapply (rtc_ind_r (R := cstep) (λ c, inv c ∧ inv_log c));
    [split; [apply inv_initial | apply inv_log_initial] | | exact Hrun].
  intros cfg1 cfg2 _ Hstep [Hinv Hlog].
  split; [by apply cstep_inv with (cfg := cfg1) |].
  destruct Hstep as [cfg1 cfg2 Hw | i o m w rs log r r' m' Hi Hr].
  - by apply writer_step_inv_log with (cfg := cfg1).
  - by apply reader_step_inv_log with (r := r) (m := m).
Qed.

Lemma cstep_keeps_readers cfg cfg' :
  cstep cfg cfg' → length (readers cfg') = length (readers cfg).
Proof.
  intros [cfg1 cfg2 Hw | i o m w rs log r r' m' Hi Hr]; simpl.
  - by destruct Hw.
  - apply length_insert.
Qed.

Lemma reachable_readers n cfg :
  rtc cstep (initial n) cfg → length (readers cfg) = n.
Proof.
  intros Hrun.
  eapply (rtc_ind_r (R := cstep) (λ c, length (readers c) = n) (initial n));
    [apply length_replicate | | exact Hrun].
  intros cfg1 cfg2 _ Hstep IH. by rewrite (cstep_keeps_readers _ _ Hstep).
Qed.

Lemma find_unreturned (rs : list ReaderPC) :
  (∀ i r, rs !! i = Some r → returned r = true) ∨
  (∃ i r, rs !! i = Some r ∧ returned r = false).
Proof.
  induction rs as [|r rs IH]; [left; by intros i r |].
  destruct (returned r) eqn:Hr; [| right; by exists 0, r].
  destruct IH as [Hall | (i & r' & Hi & Hr')].
  - left. intros [|i] r'; simpl; [by intros [= <-] | apply Hall].
  - right. by exists (S i), r'.
Qed.

(** A thread that is not blocked on the mutex can execute its statement. *)
Lemma writer_can_step o held pc rs log :
  in_critical_section pc = true →
  ∃ cfg', cstep (mkConfig o (mkRWMutex true held) pc rs log) cfg'.
Proof.
  destruct pc; intros [=]; eexists; apply cstep_writer; constructor.
Qed.

Lemma reader_can_step i o held w rs log r :
  rs !! i = Some r → returned r = false →
  ∃ cfg', cstep (mkConfig o (mkRWMutex false held) w rs log) cfg'.
Proof.
  intros Hi Hr. destruct r; try discriminate.
  - eexists. eapply cstep_reader; [exact Hi | apply r_rlock].
  - destruct (discovery o) as [c|] eqn:Hc.
    + eexists. eapply cstep_reader; [exact Hi | by apply r_select].
    + eexists. eapply cstep_reader; [exact Hi | by apply r_select_nil].
  - eexists. eapply cstep_reader; [exact Hi | apply r_encode].
  - eexists. eapply cstep_reader; [exact Hi | apply r_return].
Qed.

End RaceProtocol.

(** X9: the mutex excludes. In every state of a race, a reader between
    its [RLock] and its return holds the read lock while the writer is
    outside lines 124-140; and while the writer is inside them it holds
    the write lock, no reader holds the read lock, and every reader is
    before its [RLock] or has returned. *)
Theorem race_mutual_exclusion `{pkg : DiscoveryPackage} `{race : Race}
    (n : nat) (cfg : Config) :
  rtc cstep (initial n) cfg →
  (∀ i r, readers cfg !! i = Some r → reading r = true →
     in_critical_section (wpc cfg) = false ∧
     w_held (mu cfg) = false ∧ i ∈ r_held (mu cfg)) ∧
  (in_critical_section (wpc cfg) = true →
     w_held (mu cfg) = true ∧ r_held (mu cfg) = ∅ ∧
     ∀ i r, readers cfg !! i = Some r → reading r = false).
Proof.
  intros Hrun. pose proof (reachable_inv _ _ Hrun) as Hinv.
  pose proof Hinv as (Hw & Hexcl & Hr).
  assert (Hcrit : in_critical_section (wpc cfg) = negb (negb (w_held (mu cfg)))).
  { unfold writer_inv in Hw. destruct (wpc cfg), Hw as [_ ->]; done. }
  assert (Hreading : ∀ i r, readers cfg !! i = Some r → reading r = true →
                            i ∈ r_held (mu cfg)).
  { intros i r Hi Hread. specialize (Hr i r Hi).
    destruct r; try done; by destruct Hr. }
  split.
  - intros i r Hi Hread. pose proof (Hreading i r Hi Hread) as Hheld.
    pose proof (held_reader_excludes_writer _ i Hinv Hheld) as Hfree.
    rewrite Hcrit, Hfree. by repeat split.
  - intros Hin. rewrite Hcrit in Hin.
    destruct (w_held (mu cfg)) eqn:Hheld; [| done].
    specialize (Hexcl eq_refl). split; [done |]. split; [done |].
    intros i r Hi. destruct (reading r) eqn:Hread; [| done].
    pose proof (Hreading i r Hi Hread) as Hmem. rewrite Hexcl in Hmem.
    set_solver.
Qed.

(** X10: the race never deadlocks. In every state of a race either the
    reload and all [DiscoverServers] calls have returned, or some thread
    can execute its next statement: a reader that waits at [RLock] waits
    for a writer that can go on to its [Unlock], and a writer that waits
    at [Lock] waits for readers that can go on to their return. *)
Theorem race_never_deadlocks `{pkg : DiscoveryPackage} `{race : Race}
    (n : nat) (cfg : Config) :
  rtc cstep (initial n) cfg →
  finished cfg ∨ ∃ cfg', cstep cfg cfg'.
Proof.
  intros Hrun.
  pose proof (reachable_inv _ _ Hrun) as (Hw & Hexcl & Hr).
  pose proof (reachable_inv_log _ _ Hrun) as (Hknown & _).
  destruct cfg as [o [w held] pc rs log]; simpl in *.
  unfold writer_inv in Hw; simpl in Hw.
  destruct w.
  { right. apply writer_can_step. by destruct pc, Hw as [_ ?]. }
  destruct (find_unreturned rs) as [Hall | (i & r & Hi & Hret)].
  2: { right. by apply reader_can_step with (i := i) (r := r). }
  assert (held = ∅) as ->.
  { apply leibniz_equiv, elem_of_equiv_empty. intros i Hi.
    destruct (Hknown i Hi) as [r Hri].
    specialize (Hr i r Hri). specialize (Hall i r Hri).
    destruct r; try done. by destruct Hr. }
  destruct pc; try (by destruct Hw as [_ ?]).
  - right. eexists. apply cstep_writer, w_lock. done.
  - left. by split.
Qed.

(** X12: every complete race ends in the same shared state. When the
    reload and all [n] calls of [DiscoverServers] have returned, whatever
    the interleaving was, the orchestrator is the one the reload alone
    leaves, the mutex is free, the cancel function that was in place has
    been called exactly once (and no other), and each of the [n] readers
    has got what [DiscoverServers] returns on the orchestrator before the
    reload or on the one after it. *)
Theorem race_ends_as_reload `{pkg : DiscoveryPackage} `{race : Race}
    (n : nat) (cfg : Config) :
  rtc cstep (initial n) cfg →
  finished cfg →
  obj cfg = reloaded ∧
  mu cfg = mkRWMutex false ∅ ∧
  cancelled cfg = old_contexts ∧
  length (readers cfg) = n ∧
  ∀ i, i < n →
    ∃ result, readers cfg !! i = Some (RReturned result) ∧
      (result = sequential_result race_before (reader_IP i) ∨
       result = sequential_result reloaded (reader_IP i)).
Proof.
  intros Hrun [Hpc Hall].
  pose proof (reachable_inv _ _ Hrun) as (Hw & Hexcl & Hr).
  pose proof (reachable_inv_log _ _ Hrun) as (Hknown & Hlog).
  pose proof (reachable_readers _ _ Hrun) as Hlen.
  unfold writer_inv in Hw. rewrite Hpc in Hw, Hlog. destruct Hw as [Ho Hfree].
  assert (r_held (mu cfg) = ∅) as Hnone.
  { apply leibniz_equiv, elem_of_equiv_empty. intros i Hi.
    destruct (Hknown i Hi) as [r Hri].
    specialize (Hr i r Hri). specialize (Hall i r Hri).
    destruct r; try done. by destruct Hr. }
  split; [done |]. split.
  { destruct (mu cfg) as [w held]; simpl in *. by subst. }
  split; [done |]. split; [done |].
  intros i Hi.
  destruct (lookup_lt_is_Some_2 (readers cfg) i) as [r Hri]; [lia |].
  specialize (Hr i r Hri). specialize (Hall i r Hri).
  destruct r as [| | | |result]; try done.
  exists result. split; [done |]. by destruct Hr.
Qed.

(** ** The race properties on the race to the consistent strategy *)

Lemma cfg_after_race_finished : finished cfg_after_race.
Proof.
  split; [done |].
  intros [|[|i]] r; simpl; intros [= <-]; done.
Qed.

Lemma race_mutual_exclusion_witness :
  0 ∈ r_held (mkRWMutex false ({[0]} ∪ ∅)) ∧
  in_critical_section WLock = false.
Proof.
  destruct (proj1 (@race_mutual_exclusion no_failure race_to_consistent 2
              (mkConfig classic_orchestrator (mkRWMutex false ({[0]} ∪ ∅))
                 WLock [RSelect classic_orchestrator; RRLock] [])
              (rtc_once _ _
                 (@cstep_reader no_failure race_to_consistent 0
                    classic_orchestrator (mkRWMutex false ∅) WLock
                    [RRLock; RRLock] [] RRLock _ _ eq_refl
                    (@r_rlock no_failure race_to_consistent 0
                       classic_orchestrator ∅))))
            0 (RSelect classic_orchestrator) eq_refl eq_refl)
    as (Hout & _ & Hheld).
  split; [exact Hheld | exact Hout].
Defined.

Lemma race_never_deadlocks_witness :
  finished cfg_after_race ∨
  ∃ cfg', @cstep no_failure race_to_consistent cfg_after_race cfg'.
Proof.
  exact (@race_never_deadlocks no_failure race_to_consistent 2
           cfg_after_race race_run).
Defined.

Lemma race_ends_as_reload_witness :
  obj cfg_after_race = @reloaded race_to_consistent ∧
  cancelled cfg_after_race = [0].
Proof.
  destruct (@race_ends_as_reload no_failure race_to_consistent 2
              cfg_after_race race_run cfg_after_race_finished)
    as (Hobj & _ & Hlog & _).
  split; [exact Hobj | exact Hlog].
Defined.

(** ** Queries after a reload *)

(** X13: after a successful [reload] that went through the swap,
    [DiscoverServers] answers from the component built by that call: the
    strategy named by the tactics, over the servers
    [PsinetDatabase.GetDiscoveryServers()] gave during the call. A later
    change of the support services (other servers in the database, other
    tactics) does not change the answers until the next [reload]. *)
Theorem reload_then_DiscoverServers `{pkg : DiscoveryPackage}
    (d : loc) (reloadedTactics : bool) (σ : State) (o : Discovery)
    (s : loc) (sup : SupportServices) (p : ParametersAccessor)
    (clientIP : IP) :
  orchestrators σ !! d = Some o →
  support o = Some s →
  supports σ !! s = Some sup →
  Support.ServerTacticsParametersCache sup NewGeoIPData = inr p →
  (reload d reloadedTactics σ).1 = Returns None →
  short_circuits d reloadedTactics σ = false →
  let σ' := (reload d reloadedTactics σ).2 in
  ∃ ds,
    names_strategy (target_strategy p) ds ∧
    let component :=
      mkComponent (next_ctx σ) RealClock (Support.GetDiscoveryServers sup) ds in
    let answer :=
      Returns (Slice (map EncodedServerEntry
                        (SelectServers component clientIP))) in
    (DiscoverServers d clientIP σ').1 = answer ∧
    ∀ sups,
      (DiscoverServers d clientIP
         (mkState sups (orchestrators σ') (next_ctx σ') (trace σ'))).1
      = answer.
Proof.
  intros Hd Hs Hsup Hp Hok Hshort σ'. subst σ'.
  destruct (reload d reloadedTactics σ) as [out σ'] eqn:Hrun.
  simpl in Hok. subst out. simpl.
  destruct (reload_effect _ _ _ _ _ Hrun)
    as [(_ & _ & Hnoop) | (_ & _ & Hswap)].
  { destruct (Hnoop eq_refl) as [_ ?]. congruence. }
  destruct Hswap as (o' & s' & sup' & p' & ev & ds & Hd' & Hs' & Hsup' & Hp'
                     & Hcall & ->).
  assert (o' = o) as -> by congruence.
  assert (s' = s) as -> by congruence.
  assert (sup' = sup) as -> by congruence.
  assert (p' = p) as -> by congruence.
  exists ds. split; [by apply strategy_call_names in Hcall |].
  split; [| intros sups];
    rewrite DiscoverServers_run; simpl; by rewrite lookup_insert_eq.
Qed.

Lemma reload_then_DiscoverServers_witness :
  let σ' := (@reload no_failure 0 false (σ_tactics "consistent")).2 in
  (@DiscoverServers no_failure 0 [] σ').1
  = Returns (Slice ["entry-a"; "entry-b"]) ∧
  (@DiscoverServers no_failure 0 []
     (mkState ∅ (orchestrators σ') (next_ctx σ') (trace σ'))).1
  = Returns (Slice ["entry-a"; "entry-b"]).
Proof.
  intros σ'.
  destruct (@reload_then_DiscoverServers no_failure 0 false
              (σ_tactics "consistent") classic_orchestrator 0
              (support_with "consistent" (Some 0)) (Some (λ _, "consistent"))
              [] eq_refl eq_refl eq_refl eq_refl eq_refl eq_refl)
    as (ds & _ & Hnow & Hlater).
  split; [exact Hnow | exact (Hlater ∅)].
Defined.
